(** * Alternate minimisation and the homogeneous load-stepping driver

    Shallow embedding of [practice/discrete_atk_homogeneous.py]: the class
    [_AlternateMinimisation] (its [solve] loop) and the driver [discrete_atk]
    with its two local helpers [_critical_load] and [_homogeneous_state].

    Numbers.  The program computes with Python [int]s and IEEE binary64
    values ([float], [numpy.float64]).  Integers are [Z].  The code is written
    once over an interface [Arith] of the float operations it uses and read at
    two instances:
    - [float_Arith]: Rocq's primitive binary64 floats, the arithmetic the
      program runs with (round to nearest even, NaN, signed zeros, infinities);
    - [R_Arith]: the real numbers, the exact arithmetic the formulas are
      meant in.

    External collaborators (PETSc, dolfinx, the SNES solvers, the stability
    solvers) are not part of the file that is verified; what the code asks
    of them is gathered in two interfaces, [_AlternateMinimisation.Externals]
    and [Driver.Solvers], over which the definitions are parameterised.  The
    run is sequential (one MPI rank). *)

From Stdlib Require Import String.
From Stdlib Require Import ZArith List Bool Lia.
From Stdlib Require Import Floats.
From Stdlib Require Import Reals Lra.
Import ListNotations.
Local Open Scope list_scope.

Set Implicit Arguments.

(** ** The float operations the program uses *)

Class Arith (F : Type) : Type := {
  of_Z  : Z -> F;            (* int -> float conversion *)
  fadd  : F -> F -> F;
  fsub  : F -> F -> F;
  fmul  : F -> F -> F;
  fdiv  : F -> F -> F;       (* float division: no exception on a zero divisor *)
  fsqrt : F -> F;            (* np.sqrt, ufl.sqrt on a number *)
  fabs  : F -> F;
  fleb  : F -> F -> bool;    (* <= *)
  fltb  : F -> F -> bool;    (* <  *)
  feqb  : F -> F -> bool     (* == *)
}.

Declare Scope arith_scope.
Delimit Scope arith_scope with ar.
Infix "+" := fadd : arith_scope.
Infix "-" := fsub : arith_scope.
Infix "*" := fmul : arith_scope.
Infix "/" := fdiv : arith_scope.
Infix "<=?" := fleb : arith_scope.
Infix "<?" := fltb : arith_scope.
Infix "=?" := feqb : arith_scope.

(** [int -> binary64]: exact for [|z| < 2^53], rounded to nearest below
    [2^63]; from [2^63] on it is not Python's conversion (which rounds an
    unbounded [int] or raises [OverflowError]).  Every integer of the driver
    is far below [2^53]. *)
Definition Z2float (z : Z) : float :=
  match z with
  | Z0 => PrimFloat.zero
  | Zpos _ => PrimFloat.of_uint63 (Uint63.of_Z z)
  | Zneg p => PrimFloat.opp (PrimFloat.of_uint63 (Uint63.of_Z (Zpos p)))
  end.

#[export] Instance float_Arith : Arith float := {|
  of_Z := Z2float;
  fadd := PrimFloat.add;
  fsub := PrimFloat.sub;
  fmul := PrimFloat.mul;
  fdiv := PrimFloat.div;
  fsqrt := PrimFloat.sqrt;
  fabs := PrimFloat.abs;
  fleb := PrimFloat.leb;
  fltb := PrimFloat.ltb;
  feqb := PrimFloat.eqb
|}.

#[export] Instance R_Arith : Arith R := {|
  of_Z := IZR;
  fadd := Rplus;
  fsub := Rminus;
  fmul := Rmult;
  fdiv := Rdiv;
  fsqrt := sqrt;
  fabs := Rabs;
  fleb := fun x y => if Rle_dec x y then true else false;
  fltb := fun x y => if Rlt_dec x y then true else false;
  feqb := fun x y => if Req_dec_T x y then true else false
|}.

(** ** Python's [range] *)

Definition range (n : Z) : list Z := map Z.of_nat (seq 0 (Z.to_nat n)).

(** ** State and material parameters *)

(** [state = {"u": u, "alpha": alpha}]: the nodal displacements (P1, one value
    per node) and the damage (DG0, one value per cell), as the arrays of their
    PETSc vectors. *)
Record State (F : Type) : Type := mkState {
  u : list F;
  alpha : list F
}.
Arguments mkState {F} _ _.

(** The entries of [parameters["model"]] the helpers read; the driver sets
    them to Python [int]s. *)
Record MatPar : Type := mkMatPar {
  mu : Z;
  k : Z;
  w1 : Z;
  N : Z
}.

Section Homogeneous.
Context {F : Type} {A : Arith F}.

(** [_critical_load]: [np.sqrt(8 * _w1 / (_mu * _k) / 4)].  [8 * _w1] and
    [_mu * _k] are integer products; their quotient is Python's true
    division of two [int]s, which raises [ZeroDivisionError] on a zero
    divisor ([None]).  The quotient is taken here on the two converted
    integers: this is Python's quotient when both are below [2^53] in
    absolute value, as they are in the driver ([16] and [4]); beyond, Python
    rounds the exact quotient once and raises [OverflowError] when it is too
    large. *)
Definition _critical_load (matpar : MatPar) : option F :=
  let '(_mu, _k, _w1, _N) := (mu matpar, k matpar, w1 matpar, N matpar) in
  if (_mu * _k =? 0)%Z then None
  else Some (fsqrt (of_Z (8 * _w1) / of_Z (_mu * _k) / of_Z 4)%ar).

(** The two branches of [_homogeneous_state]: the lists [_alphah] and [_uh]
    each one builds ([_tc] is the critical load). *)
Definition elastic_branch (t : F) (_N : Z) : State F :=
  let _alphah := map (fun _ => of_Z 0) (range _N) in
  let _uh := map (fun i => (of_Z i * t / of_Z _N)%ar) (range (_N + 1)) in
  mkState _uh _alphah.

Definition damaging_branch (_tc t : F) (_k _N : Z) : State F :=
  let _a := ((t / _tc - of_Z 1) / of_Z (_k - 1))%ar in
  let _alphah := map (fun _ => _a) (range _N) in
  let _e := (t / of_Z _N)%ar in
  let _uh := map (fun i => (_e * of_Z i)%ar) (range (_N + 1)) in
  mkState _uh _alphah.

(** [_homogeneous_state(state, t, matpar)].  [parameters_model] is the
    dictionary [parameters["model"]] of the enclosing function, which the
    body reads for the critical load; [t] is a [numpy.float64].  Both
    vectors of [state] are overwritten ([vec[:] = list], the lists have the
    sizes of the vectors: [_N] cells and [_N + 1] nodes); the function
    returns nothing, here it returns the state it leaves. *)
Definition _homogeneous_state (parameters_model : MatPar)
    (state : State F) (t : F) (matpar : MatPar) : option (State F) :=
  let '(_mu, _k, _w1, _N) := (mu matpar, k matpar, w1 matpar, N matpar) in
  match _critical_load parameters_model with
  | None => None
  | Some _tc =>
      if (t <=? _tc)%ar then Some (elastic_branch t _N)
      else Some (damaging_branch _tc t _k _N)
  end.

(** [np.linspace(start, stop, num)] (numpy, [endpoint=True]):
    [arange(0, num) * step + start] with [step = (stop - start) / (num - 1)],
    the last entry overwritten with [stop]. *)
Definition linspace (start stop : F) (num : Z) : list F :=
  let div := (num - 1)%Z in
  let delta := (stop - start)%ar in
  let y := range num in
  if (0 <? div)%Z then
    let step := (delta / of_Z div)%ar in
    let y := if (step =? of_Z 0)%ar
             then map (fun i => (of_Z i / of_Z div * delta)%ar) y
             else map (fun i => (of_Z i * step)%ar) y in
    let y := map (fun yi => (yi + start)%ar) y in
    removelast y ++ [stop]
  else
    map (fun i => (of_Z i * delta + start)%ar) y.

End Homogeneous.

(** ** The material functions of [discrete_atk]

    [a], [a_atk] and [w] are written for UFL expressions; they are the same
    arithmetic at every point, which is what is modelled: the value at a
    damage [alpha].  [k_res] and [_k] are [parameters["model"]["k_res"]] and
    [parameters["model"]["k"]]. *)

Section Material.
Context {F : Type} {A : Arith F}.

(** [a(alpha)]: [(1 - alpha) ** 2 + k_res]. *)
Definition a (k_res : F) (alpha_ : F) : F :=
  ((of_Z 1 - alpha_) * (of_Z 1 - alpha_) + k_res)%ar.

(** [a_atk(alpha)]: [(1 - alpha) / ((_k - 1) * alpha + 1)]. *)
Definition a_atk (_k : Z) (alpha_ : F) : F :=
  ((of_Z 1 - alpha_) / (of_Z (_k - 1) * alpha_ + of_Z 1))%ar.

(** [w(alpha)]: [alpha]. *)
Definition w (alpha_ : F) : F := alpha_.

End Material.

(** ** [class _AlternateMinimisation] *)

Module _AlternateMinimisation.

(** [self.data]: one list per diagnostic, one entry per iteration. *)
Record Data (F : Type) : Type := mkData {
  iteration : list Z;
  error_alpha_L2 : list F;
  error_alpha_H1 : list F;
  F_norm : list F;
  error_alpha_max : list F;
  error_residual_F : list F;
  solver_alpha_reason : list Z;
  solver_alpha_it : list Z;
  solver_u_reason : list Z;
  solver_u_it : list Z;
  total_energy : list F
}.

Definition empty_data {F : Type} : Data F :=
  mkData [] [] [] [] [] [] [] [] [] [] [].

(** [solver_parameters["damage_elasticity"]]. *)
Record DamageElasticity (F : Type) : Type := mkDamageElasticity {
  max_it : Z;
  criterion : string;
  alpha_rtol : F
}.

(** The object: the shared [state], the previous damage [alpha_old], the
    bounds, the configuration, the diagnostics, and the internals of the
    external solvers ([petsc]). *)
Record t (F World : Type) : Type := mkAM {
  state : State F;
  alpha_old : list F;
  alpha_lb : list F;
  alpha_ub : list F;
  solver_parameters : DamageElasticity F;
  data : Data F;
  petsc : World
}.

(** How [solve] ends: it returns, or the [else] of the loop raises
    [RuntimeError] with [iteration] and [error_alpha_H1] formatted into its
    message; when the loop body never ran these two names are unbound and
    formatting the message raises [UnboundLocalError] instead. *)
Inductive Outcome (F World : Type) : Type :=
| Returned (self : t F World)
| RuntimeError (self : t F World) (iteration : Z) (error_alpha_H1 : F)
| UnboundLocalError (self : t F World).
Arguments Returned {F World} _.
Arguments RuntimeError {F World} _ _ _.
Arguments UnboundLocalError {F World} _.

(** What [solve] asks of its collaborators; [World] stands for their
    internals (PETSc objects, the two SNES solvers). *)
Class Externals (F World : Type) : Type := {
  (** [self.elasticity.solve()]: the new [u] and [(iterations, reason)]. *)
  elasticity_solve : World -> State F -> World * list F * (Z * Z);
  (** [self.damage.solve()], within the bounds: the new [alpha] and
      [(iterations, reason)]. *)
  damage_solve :
    World -> State F -> list F -> list F -> World * list F * (Z * Z);
  (** [irrevolutions.utils.norm_H1], [norm_L2]. *)
  norm_H1 : list F -> F;
  norm_L2 : list F -> F;
  (** [Fvi.norm()] for the two assembled gradients of the energy. *)
  assemble_F_norms : State F -> list F;
  (** [assemble_scalar(form(self.total_energy))]. *)
  assemble_total_energy : State F -> F;
  (** [assemble_vector(self.elasticity.F_form)] after [set_bc]. *)
  assemble_residual : State F -> list F;
  (** What PETSc's [Vec.max] gives for a vector of length 0. *)
  PETSC_MIN_REAL : F
}.

Section Solve.
Context {F : Type} {A : Arith F} {World : Type} {E : Externals F World}.

(** [y.axpy(a, x)]: [y <- y + a * x], entry by entry. *)
Fixpoint axpy (a : F) (x y : list F) : list F :=
  match x, y with
  | xi :: x', yi :: y' => (yi + a * xi)%ar :: axpy a x' y'
  | _, _ => y
  end.

(** [x.dot(y)]: the sum of the products of the entries (the order of the
    additions is the library's). *)
Fixpoint dot (x y : list F) : F :=
  match x, y with
  | xi :: x', yi :: y' => (xi * yi + dot x' y')%ar
  | _, _ => of_Z 0
  end.

(** [np.array(l).sum()]. *)
Definition sum (l : list F) : F := fold_left fadd l (of_Z 0).

(** [vec.max()[1]]: the largest entry of the vector. *)
Definition vec_max (v : list F) : F :=
  match v with
  | [] => PETSC_MIN_REAL
  | x :: xs => fold_left (fun m y => if (m <? y)%ar then y else m) xs x
  end.

(** The stopping test at the end of the loop body ([true]: [break]). *)
Definition stop (cfg : DamageElasticity F)
    (error_residual_F error_alpha_H1 : F) : bool :=
  (String.eqb (criterion cfg) "residual_u"
     && (error_residual_F <=? alpha_rtol cfg)%ar)
  || (String.eqb (criterion cfg) "alpha_H1"
        && (error_alpha_H1 <=? alpha_rtol cfg)%ar).

(** One pass through the body of the [for] loop: the object it leaves,
    whether it breaks, and the value of [error_alpha_H1]. *)
Definition body (self : t F World) (iteration_ : Z) : t F World * bool * F :=
  let '(w, u', (solver_u_it_, solver_u_reason_)) :=
    elasticity_solve (petsc self) (state self) in
  let st := mkState u' (alpha (state self)) in
  let '(w, alpha', (solver_alpha_it_, solver_alpha_reason_)) :=
    damage_solve w st (alpha_lb self) (alpha_ub self) in
  let st := mkState u' alpha' in
  (* alpha_diff = alpha - alpha_old *)
  let alpha_diff := axpy (of_Z (-1)) (alpha_old self) alpha' in
  let error_alpha_H1_ := norm_H1 alpha_diff in
  let error_alpha_L2_ := norm_L2 alpha_diff in
  let Fnorm := fsqrt (sum (assemble_F_norms st)) in
  let error_alpha_max_ := vec_max alpha_diff in
  let total_energy_int := assemble_total_energy st in
  let residual_F := assemble_residual st in
  let error_residual_F_ := fsqrt (dot residual_F residual_F) in
  let d := data self in
  let d' := {|
    iteration := iteration d ++ [iteration_];
    error_alpha_L2 := error_alpha_L2 d ++ [error_alpha_L2_];
    error_alpha_H1 := error_alpha_H1 d ++ [error_alpha_H1_];
    F_norm := F_norm d ++ [Fnorm];
    error_alpha_max := error_alpha_max d ++ [error_alpha_max_];
    error_residual_F := error_residual_F d ++ [error_residual_F_];
    solver_alpha_reason := solver_alpha_reason d ++ [solver_alpha_reason_];
    solver_alpha_it := solver_alpha_it d ++ [solver_alpha_it_];
    solver_u_reason := solver_u_reason d ++ [solver_u_reason_];
    solver_u_it := solver_u_it d ++ [solver_u_it_];
    total_energy := total_energy d ++ [total_energy_int]
  |} in
  let self' := {|
    state := st;
    alpha_old := alpha';
    alpha_lb := alpha_lb self;
    alpha_ub := alpha_ub self;
    solver_parameters := solver_parameters self;
    data := d';
    petsc := w
  |} in
  (self',
   stop (solver_parameters self) error_residual_F_ error_alpha_H1_,
   error_alpha_H1_).

(** [for iteration in range(max_it): ... else: raise ...].  [last] is the
    binding of [iteration] and [error_alpha_H1] left by the previous
    pass, if any. *)
Fixpoint loop (its : list Z) (self : t F World) (last : option (Z * F))
  : Outcome F World :=
  match its with
  | [] =>
      match last with
      | Some (i, e) => RuntimeError self i e
      | None => UnboundLocalError self
      end
  | i :: its' =>
      let '(self', brk, e) := body self i in
      if brk then Returned self' else loop its' self' (Some (i, e))
  end.

Definition with_data (self : t F World) (d : Data F) : t F World :=
  {| state := state self; alpha_old := alpha_old self;
     alpha_lb := alpha_lb self; alpha_ub := alpha_ub self;
     solver_parameters := solver_parameters self;
     data := d; petsc := petsc self |}.

Definition solve (self : t F World) : Outcome F World :=
  loop (range (max_it (solver_parameters self)))
       (with_data self empty_data) None.

(** The object an outcome carries. *)
Definition self_of (o : Outcome F World) : t F World :=
  match o with
  | Returned s => s
  | RuntimeError s _ _ => s
  | UnboundLocalError s => s
  end.

(** *** The max-norm of the spec

    The spec's words for the third metric: the max-norm (L-infinity
    norm) of the increment, the maximum of the absolute values of its
    components. *)
Definition max_norm_spec (v : list F) : F :=
  fold_left (fun m y => if (m <? fabs y)%ar then fabs y else m) v (of_Z 0).

(** [alpha_new - alpha_old], as the loop body computes it. *)
Definition increment (alpha_new alpha_old_ : list F) : list F :=
  axpy (of_Z (-1)) alpha_old_ alpha_new.

(** The loop body run over [its] with the [break] ignored: the object
    it leaves, and whether the stopping test failed at every pass. *)
Fixpoint run_body (its : list Z) (self : t F World) : t F World :=
  match its with
  | [] => self
  | i :: its' => run_body its' (fst (fst (body self i)))
  end.

Fixpoint never_stops (its : list Z) (self : t F World) : bool :=
  match its with
  | [] => true
  | i :: its' =>
      negb (snd (fst (body self i)))
      && never_stops its' (fst (fst (body self i)))
  end.

(** Every list of [self.data] has [n] entries. *)
Definition data_lengths (d : Data F) (n : nat) : Prop :=
  List.length (iteration d) = n /\ List.length (error_alpha_L2 d) = n
  /\ List.length (error_alpha_H1 d) = n /\ List.length (F_norm d) = n
  /\ List.length (error_alpha_max d) = n
  /\ List.length (error_residual_F d) = n
  /\ List.length (solver_alpha_reason d) = n
  /\ List.length (solver_alpha_it d) = n
  /\ List.length (solver_u_reason d) = n
  /\ List.length (solver_u_it d) = n
  /\ List.length (total_energy d) = n.

End Solve.

(** [__init__]: [alpha_old] is a new function on the space of [alpha],
    all zeros. *)
Definition __init__ {F : Type} {A : Arith F} {World : Type}
    (state_ : State F) (solver_parameters_ : DamageElasticity F)
    (bounds : list F * list F) (w : World) : t F World :=
  {| state := state_;
     alpha_old := map (fun _ => of_Z 0) (alpha state_);
     alpha_lb := fst bounds;
     alpha_ub := snd bounds;
     solver_parameters := solver_parameters_;
     data := empty_data;
     petsc := w |}.

End _AlternateMinimisation.

(** ** [discrete_atk]: the driver *)

Module Driver.

(** [history_data]: one list per key, one entry per load step. *)
Record History (F Eigs ConeData : Type) : Type := mkHistory {
  load : list F;
  elastic_energy : list F;
  fracture_energy : list F;
  total_energy : list F;
  cone_data : list ConeData;
  eigs : list Eigs;
  cone_stable : list bool;          (* key "cone-stable" *)
  non_bifurcation : list bool;      (* key "non-bifurcation" *)
  reaction_F : list F;                (* key "F" *)
  alpha_t : list (list F);
  u_t : list (list F)
}.

Definition empty_history {F Eigs ConeData : Type} : History F Eigs ConeData :=
  mkHistory [] [] [] [] [] [] [] [] [] [] [].

(** The calls the driver makes on the solver objects, in program order. *)
Inductive Call (F : Type) : Type :=
| AlternateMinimisation_init
| AlternateMinimisation_solve
| BifurcationSolver_init
| StabilitySolver_init
| homogeneous_state (t : F)
| stability_solve
| stability_is_elastic
| stability_get_inertia
| cone_my_solve.
Arguments AlternateMinimisation_init {F}.
Arguments AlternateMinimisation_solve {F}.
Arguments BifurcationSolver_init {F}.
Arguments StabilitySolver_init {F}.
Arguments homogeneous_state {F} _.
Arguments stability_solve {F}.
Arguments stability_is_elastic {F}.
Arguments stability_get_inertia {F}.
Arguments cone_my_solve {F}.

(** The variables of [discrete_atk] the load loop reads and writes. *)
Record Run (F World Eigs ConeData : Type) : Type := mkRun {
  state : State F;
  alpha_lb : list F;
  alpha_ub : list F;
  history_data : History F Eigs ConeData;
  check_stability : list bool;
  solvers : World;                     (* internals of [stability], [cone] *)
  calls : list (Call F)
}.

(** What the load loop asks of the two stability solvers and of the
    assembler; [World] stands for the internals of [stability] and [cone].
    [stability.solve(alpha_lb)] and [cone.my_solve(alpha_lb)] read the
    state and the bound they are given and keep their results in their own
    records. *)
Class Solvers (F World Eigs ConeData : Type) : Type := {
  solve_stability : World -> State F -> list F -> World * bool;
  is_elastic_stability : World -> bool;
  get_inertia_stability : World -> Z * Z * Z;
  data_eigs : World -> Eigs;              (* stability.data["eigs"] *)
  data_stable : World -> bool;            (* stability.data["stable"] *)
  my_solve_cone : World -> State F -> list F -> World * bool;
  data_cone : World -> ConeData;          (* cone.data *)
  (** [assemble_scalar(form(...))] of the two energy densities and of the
      stress. *)
  assemble_fracture_energy : State F -> F;
  assemble_elastic_energy : State F -> F;
  assemble_stress : State F -> F
}.

Section Loop.
Context {F : Type} {A : Arith F} {World Eigs ConeData : Type}.
Context {Sv : Solvers F World Eigs ConeData}.

Let Run' := Run F World Eigs ConeData.

(** One pass through the body of [for i_t, t in enumerate(loads)];
    [None] when the body raises.  Logging, plotting and the files written
    are left out. *)
Definition load_step (parameters_model : MatPar) (r : Run') (t : F)
  : option Run' :=
  (* homogeneous solution *)
  match _homogeneous_state parameters_model (state r) t parameters_model with
  | None => None
  | Some st =>
      let '(w, is_stable) := solve_stability (solvers r) st (alpha_lb r) in
      let is_elastic := is_elastic_stability w in
      let inertia := get_inertia_stability w in
      let check_stability' := check_stability r ++ [is_stable] in
      let '(w, stable) := my_solve_cone w st (alpha_lb r) in
      let fracture_energy_ := assemble_fracture_energy st in
      let elastic_energy_ := assemble_elastic_energy st in
      let _F := assemble_stress st in
      let h := history_data r in
      let h' := {|
        load := load h ++ [t];
        fracture_energy := fracture_energy h ++ [fracture_energy_];
        elastic_energy := elastic_energy h ++ [elastic_energy_];
        total_energy :=
          total_energy h ++ [(elastic_energy_ + fracture_energy_)%ar];
        cone_data := cone_data h ++ [data_cone w];
        eigs := eigs h ++ [data_eigs w];
        non_bifurcation := non_bifurcation h ++ [negb (data_stable w)];
        cone_stable := cone_stable h ++ [stable];
        reaction_F := reaction_F h ++ [_F];
        alpha_t := alpha_t h ++ [alpha st];
        u_t := u_t h ++ [u st]
      |} in
      Some {|
        state := st;
        alpha_lb := alpha_lb r;
        alpha_ub := alpha_ub r;
        history_data := h';
        check_stability := check_stability';
        solvers := w;
        calls := calls r ++ [homogeneous_state t; stability_solve;
                             stability_is_elastic; stability_get_inertia;
                             cone_my_solve]
      |}
  end.

(** [for i_t, t in enumerate(loads): ...]. *)
Fixpoint load_loop (parameters_model : MatPar) (r : Run') (loads : list F)
  : option Run' :=
  match loads with
  | [] => Some r
  | t :: loads' =>
      match load_step parameters_model r t with
      | None => None
      | Some r' => load_loop parameters_model r' loads'
      end
  end.

(** [parameters["model"]] as the driver sets it before anything reads
    it. *)
Definition model (arg_N : Z) : MatPar :=
  {| mu := 1; w1 := 2; k := 4; N := arg_N |}.

(** The load sequence: [parameters["loading"]["max"]] is set to
    [parameters["model"]["k"]] and [steps] to [30];
    [parameters["loading"]["min"]] comes from [parameters.yml]. *)
Definition loads_of (arg_N : Z) (loading_min : F) : list F :=
  linspace loading_min (of_Z (k (model arg_N))) 30.

(** The variables of the driver when the load loop starts: the fields
    are new functions (all zeros) on a mesh of [arg_N] cells, [alpha_lb]
    and [alpha_ub] are interpolated from the constants 0 and 1, the three
    solver objects have been built (the alternate minimisation object is
    built and not kept). *)
Definition initial (arg_N : Z) (w : World) : Run' :=
  let _N := N (model arg_N) in
  let u0 := map (fun _ => of_Z 0) (range (_N + 1)) in
  let alpha0 := map (fun _ => of_Z 0) (range _N) in
  {| state := mkState u0 alpha0;
     alpha_lb := map (fun _ => of_Z 0) (range _N);
     alpha_ub := map (fun _ => of_Z 1) (range _N);
     history_data := empty_history;
     check_stability := [];
     solvers := w;
     calls := [AlternateMinimisation_init; BifurcationSolver_init;
               StabilitySolver_init] |}.

(** [discrete_atk(arg_N)], up to the end of the load loop. *)
Definition discrete_atk (arg_N : Z) (loading_min : F) (w : World)
  : option Run' :=
  load_loop (model arg_N) (initial arg_N w) (loads_of arg_N loading_min).

(** Every list of [history_data] has [n] entries. *)
Definition history_lengths (h : History F Eigs ConeData) (n : nat) : Prop :=
  List.length (load h) = n /\ List.length (elastic_energy h) = n
  /\ List.length (fracture_energy h) = n /\ List.length (total_energy h) = n
  /\ List.length (cone_data h) = n /\ List.length (eigs h) = n
  /\ List.length (cone_stable h) = n /\ List.length (non_bifurcation h) = n
  /\ List.length (reaction_F h) = n /\ List.length (alpha_t h) = n
  /\ List.length (u_t h) = n.

(** Entry by entry, the recorded total is the sum of the two recorded
    energies. *)
Definition energies_add_up (h : History F Eigs ConeData) : Prop :=
  forall i e f,
    nth_error (elastic_energy h) i = Some e ->
    nth_error (fracture_energy h) i = Some f ->
    nth_error (total_energy h) i = Some (e + f)%ar.

(** The calls of one pass through the loop body. *)
Definition step_calls (t : F) : list (Call F) :=
  [homogeneous_state t; stability_solve; stability_is_elastic;
   stability_get_inertia; cone_my_solve].

(** Every list of [h1] is the beginning of the list of [h2] under the same
    key. *)
Definition history_prefix (h1 h2 : History F Eigs ConeData) : Prop :=
  (exists l, load h2 = load h1 ++ l)
  /\ (exists l, elastic_energy h2 = elastic_energy h1 ++ l)
  /\ (exists l, fracture_energy h2 = fracture_energy h1 ++ l)
  /\ (exists l, total_energy h2 = total_energy h1 ++ l)
  /\ (exists l, cone_data h2 = cone_data h1 ++ l)
  /\ (exists l, eigs h2 = eigs h1 ++ l)
  /\ (exists l, cone_stable h2 = cone_stable h1 ++ l)
  /\ (exists l, non_bifurcation h2 = non_bifurcation h1 ++ l)
  /\ (exists l, reaction_F h2 = reaction_F h1 ++ l)
  /\ (exists l, alpha_t h2 = alpha_t h1 ++ l)
  /\ (exists l, u_t h2 = u_t h1 ++ l).

End Loop.

End Driver.

(** ** Derived definitions used in the statements *)

(** [l] ends with [x]: [x] is the last value recorded in [l]. *)
Definition ends_with {X : Type} (l : list X) (x : X) : Prop :=
  exists l0, l = l0 ++ [x].

Section Prescribed.
Context {F : Type} {A : Arith F}.

(** The critical load of the driver's material parameters
    ([mu = 1], [w1 = 2], [k = 4]): [sqrt(16 / 4 / 4)]. *)
Definition tc_model : F := fsqrt (of_Z 16 / of_Z 4 / of_Z 4)%ar.

(** The state [_homogeneous_state] leaves at load [t] in the driver. *)
Definition prescribed (arg_N : Z) (t : F) : State F :=
  if (t <=? tc_model)%ar then elastic_branch t arg_N
  else damaging_branch tc_model t 4 arg_N.

(** Relative closeness, [|x - y| <= rtol * |y|]. *)
Definition rel_close (rtol x y : F) : bool :=
  (fabs (x - y) <=? rtol * fabs y)%ar.
End Prescribed.

(** ** Collaborators for the examples

    Solver objects with fixed answers, to run the definitions on. *)

Module Examples.

(** A damage solver that answers [alpha_next], an elasticity solver that
    leaves [u] as it is; the norms of a vector are taken as
    [sqrt(v . v)]; the residual is the vector [residual]; [min_real] is
    PETSc's least real. *)
Definition externals {F : Type} {A : Arith F} (alpha_next residual : list F)
    (min_real : F)
  : _AlternateMinimisation.Externals F unit := {|
  _AlternateMinimisation.elasticity_solve := fun w st => (w, u st, (1, 2)%Z);
  _AlternateMinimisation.damage_solve := fun w st lb ub => (w, alpha_next, (1, 2)%Z);
  _AlternateMinimisation.norm_H1 :=
    fun v => fsqrt (_AlternateMinimisation.dot v v);
  _AlternateMinimisation.norm_L2 :=
    fun v => fsqrt (_AlternateMinimisation.dot v v);
  _AlternateMinimisation.assemble_F_norms := fun st => [of_Z 0; of_Z 0];
  _AlternateMinimisation.assemble_total_energy := fun st => of_Z 0;
  _AlternateMinimisation.assemble_residual := fun st => residual;
  _AlternateMinimisation.PETSC_MIN_REAL := min_real
|}.

(** An object on two cells whose previous damage is [alpha_old_]. *)
Definition am {F : Type} {A : Arith F} (alpha_old_ : list F)
    (cfg : _AlternateMinimisation.DamageElasticity F)
  : _AlternateMinimisation.t F unit := {|
  _AlternateMinimisation.state :=
    mkState [of_Z 0; of_Z 0; of_Z 0] alpha_old_;
  _AlternateMinimisation.alpha_old := alpha_old_;
  _AlternateMinimisation.alpha_lb := [of_Z 0; of_Z 0];
  _AlternateMinimisation.alpha_ub := [of_Z 1; of_Z 1];
  _AlternateMinimisation.solver_parameters := cfg;
  _AlternateMinimisation.data := _AlternateMinimisation.empty_data;
  _AlternateMinimisation.petsc := tt
|}.

(** Stability solvers that always answer "stable" and an assembler that
    answers zero. *)
Definition solvers {F : Type} {A : Arith F} : Driver.Solvers F unit unit unit := {|
  Driver.solve_stability := fun w st lb => (w, true);
  Driver.is_elastic_stability := fun w => true;
  Driver.get_inertia_stability := fun w => (0, 0, 0)%Z;
  Driver.data_eigs := fun w => tt;
  Driver.data_stable := fun w => true;
  Driver.my_solve_cone := fun w st lb => (w, true);
  Driver.data_cone := fun w => tt;
  Driver.assemble_fracture_energy := fun st => of_Z 0;
  Driver.assemble_elastic_energy := fun st => of_Z 0;
  Driver.assemble_stress := fun st => of_Z 0
|}.

(** PETSc's least real in double precision. *)
Definition min_real64 : float := (- 0x1.fffffffffffffp+1023)%float.

(** Tolerance [2^-14] (about [6.1e-5]). *)
Definition rtol64 : float := 0x1p-14%float.

(** A run that converges at once on the residual: the damage solver
    answers [[0.5, 0.5]] from [[0, 0]], the residual is zero. *)
Definition converging_externals : _AlternateMinimisation.Externals float unit :=
  externals [0.5; 0.5]%float [0; 0; 0]%float min_real64.
Definition converging_am : _AlternateMinimisation.t float unit :=
  am [0; 0]%float
     (_AlternateMinimisation.mkDamageElasticity 3 "residual_u" rtol64).

(** A run that never converges on the residual: the damage solver answers
    [[0.125, 0]] from the previous damage [[0.5, 0.5]], the residual is
    [[0, 1, 0]]. *)
Definition stalling_externals : _AlternateMinimisation.Externals float unit :=
  externals [0.125; 0]%float [0; 1; 0]%float min_real64.
Definition stalling_am : _AlternateMinimisation.t float unit :=
  am [0.5; 0.5]%float
     (_AlternateMinimisation.mkDamageElasticity 3 "residual_u" rtol64).

(** An object whose [criterion] is none of the two the loop knows. *)
Definition misconfigured_am : _AlternateMinimisation.t float unit :=
  am [0; 0]%float
     (_AlternateMinimisation.mkDamageElasticity 2 "alpha_h1" rtol64).

(** In exact arithmetic: the damage solver answers [[1/2, 1/2]] from
    [[0, 0]]. *)
Definition growing_externals : _AlternateMinimisation.Externals R unit :=
  externals [1 / 2; 1 / 2]%R [0; 0; 0]%R (-1)%R.
Definition growing_am : _AlternateMinimisation.t R unit :=
  am [0; 0]%R (_AlternateMinimisation.mkDamageElasticity 3 "alpha_H1" (1 / 10)%R).

End Examples.

(** The damage value the driver prescribes at load [t], in exact
    arithmetic. *)
Definition damage_at (t : R) : R :=
  if Rle_dec t 1 then 0%R else ((t / 1 - 1) / (4 - 1))%R.



(** An integer that converts to binary64 without rounding.  For such
    operands the quotient of two converted integers is Python's true
    division of the two [int]s (the exact quotient rounded once, which then
    cannot overflow). *)
Definition small_int (z : Z) : Prop := (Z.abs z < 2 ^ 53)%Z.

(** * Properties *)

Unset Implicit Arguments.

(** ** Lists *)

Lemma range_succ (n : Z) :
  (0 <= n)%Z -> range (n + 1) = range n ++ [n].
Proof.
  intros Hn. unfold range.
  replace (Z.to_nat (n + 1)) with (S (Z.to_nat n)) by lia.
  rewrite seq_S, map_app. simpl. now rewrite Z2Nat.id.
Qed.

Lemma length_range (n : Z) : List.length (range n) = Z.to_nat n.
Proof. unfold range. now rewrite length_map, length_seq. Qed.

Lemma nth_range (n : Z) (i : nat) (d : Z) :
  (i < Z.to_nat n)%nat -> nth i (range n) d = Z.of_nat i.
Proof.
  intros Hi. unfold range.
  rewrite nth_indep with (d' := Z.of_nat 0) by now rewrite length_map, length_seq.
  rewrite map_nth, seq_nth by assumption. reflexivity.
Qed.

(** Evaluates [range] at the closed arguments of the goal. *)
Ltac eval_range :=
  repeat match goal with
         | |- context [range ?n] =>
             let l := eval vm_compute in (range n) in
             change (range n) with l
         end.

(** Splits a right-nested conjunction as it is written into its conjuncts,
    unfolding nothing. *)
Ltac splits :=
  lazymatch goal with
  | |- _ /\ _ => split; [ | splits ]
  | |- _ => idtac
  end.

(** Two explicit lists of reals are equal entry by entry. *)
Ltac list_eq_lra :=
  repeat (apply (f_equal2 (@cons R)); [lra | ]); reflexivity.

Lemma Forall2_map_const {X Y B : Type} (R : X -> Y -> Prop) (x : X) (y : Y)
    (l : list B) :
  R x y -> Forall2 R (map (fun _ => x) l) (map (fun _ => y) l).
Proof. intros Hxy. induction l; simpl; constructor; assumption. Qed.

Lemma Forall_map_const {X B : Type} (P : X -> Prop) (x : X) (l : list B) :
  P x -> Forall P (map (fun _ => x) l).
Proof. intros Hx. induction l; simpl; constructor; assumption. Qed.

(** ** The critical load and the prescribed state *)

Section HomogeneousFacts.
Context {F : Type} {A : Arith F}.

Lemma critical_load_model (arg_N : Z) :
  _critical_load (Driver.model arg_N) = Some tc_model.
Proof. reflexivity. Qed.

Lemma homogeneous_state_model (arg_N : Z) (st : State F) (t : F) :
  _homogeneous_state (Driver.model arg_N) st t (Driver.model arg_N)
  = Some (prescribed arg_N t).
Proof.
  unfold _homogeneous_state, prescribed. rewrite critical_load_model. simpl.
  destruct (t <=? tc_model)%ar; reflexivity.
Qed.
End HomogeneousFacts.

Lemma tc_model_float : tc_model (F:=float) = 1%float.
Proof. reflexivity. Qed.

Lemma tc_model_R : tc_model (F:=R) = 1%R.
Proof.
  unfold tc_model. simpl.
  replace (16 / 4 / 4)%R with 1%R by lra. apply sqrt_1.
Qed.

(** C3. With [N = 2], [k = 4], [w1 = 2], [mu = 1], in binary64:
    [_critical_load] returns exactly [1.0]; whatever the state was,
    [_homogeneous_state] at [t = 0.5] leaves the damage [[0.0, 0.0]] and the
    displacements [[0, 0.25, 0.5]], and at [t = 2.0] the damage
    [(2.0/1.0 - 1)/(4 - 1)], which is the binary64 quotient [1/3], in both
    cells and the displacements [[0, 1.0, 2.0]]. *)
Theorem closed_form_cross_check :
  let matpar := {| mu := 1; k := 4; w1 := 2; N := 2 |} in
  _critical_load (F:=float) matpar = Some 1%float
  /\ (forall st : State float,
        _homogeneous_state matpar st 0.5%float matpar
        = Some {| u := [0; 0.25; 0.5]%float; alpha := [0; 0]%float |})
  /\ (forall st : State float,
        _homogeneous_state matpar st 2%float matpar
        = Some {| u := [0; 1; 2]%float;
                  alpha := [(2 / 1 - 1) / (4 - 1); (2 / 1 - 1) / (4 - 1)]%float |})
  /\ ((2 / 1 - 1) / (4 - 1) = 1 / 3)%float.
Proof.
  repeat split; intros; reflexivity.
Qed.

(** The same values in exact arithmetic. *)
Lemma closed_form_cross_check_exact :
  let matpar := {| mu := 1; k := 4; w1 := 2; N := 2 |} in
  _critical_load (F:=R) matpar = Some 1%R
  /\ (forall st : State R,
        _homogeneous_state matpar st (1 / 2)%R matpar
        = Some {| u := [0; 1 / 4; 1 / 2]%R; alpha := [0; 0]%R |})
  /\ (forall st : State R,
        _homogeneous_state matpar st 2%R matpar
        = Some {| u := [0; 1; 2]%R; alpha := [1 / 3; 1 / 3]%R |}).
Proof.
  assert (Hc : _critical_load (F:=R) (Driver.model 2) = Some 1%R)
    by (rewrite critical_load_model; f_equal; apply tc_model_R).
  change {| mu := 1; k := 4; w1 := 2; N := 2 |} with (Driver.model 2).
  cbv zeta. split; [exact Hc|]. split; intros st.
  - unfold _homogeneous_state. rewrite Hc. cbn.
    destruct (Rle_dec (1 / 2) 1) as [_|n]; [|exfalso; lra].
    unfold elastic_branch. eval_range. cbn.
    apply f_equal, f_equal2; list_eq_lra.
  - unfold _homogeneous_state. rewrite Hc. cbn.
    destruct (Rle_dec 2 1) as [n|_]; [exfalso; lra|].
    unfold damaging_branch. eval_range. cbn.
    apply f_equal, f_equal2; list_eq_lra.
Qed.

(** ** The load loop *)

Section DriverFacts.
Import Driver.
Context {F : Type} {A : Arith F} {World Eigs ConeData : Type}.
Context {Sv : Solvers F World Eigs ConeData}.

Let Run' := Run F World Eigs ConeData.

(** Unfolds one load step at the driver's parameters. *)
Ltac step_cases r t :=
  unfold load_step; rewrite homogeneous_state_model;
  destruct (solve_stability (solvers r) (prescribed _ t) (alpha_lb r))
    as [w1' is_stable];
  destruct (my_solve_cone w1' (prescribed _ t) (alpha_lb r)) as [w2' stable].

Lemma load_step_total (arg_N : Z) (r : Run') (t : F) :
  exists r', load_step (model arg_N) r t = Some r'.
Proof. step_cases r t. eexists; reflexivity. Qed.

Lemma load_loop_total (arg_N : Z) (loads : list F) :
  forall r : Run', exists r', load_loop (model arg_N) r loads = Some r'.
Proof.
  induction loads as [|t loads IH]; intros r; simpl.
  - now exists r.
  - destruct (load_step_total arg_N r t) as [r1 ->]. apply IH.
Qed.

(** A property kept by every load step is kept by the loop. *)
Lemma load_loop_invariant (P : Run' -> Prop) (m : MatPar) :
  (forall r t r', load_step m r t = Some r' -> P r -> P r') ->
  forall loads r r', load_loop m r loads = Some r' -> P r -> P r'.
Proof.
  intros Hstep. induction loads as [|t loads IH]; simpl; intros r r' Hrun HP.
  - now injection Hrun as <-.
  - destruct (load_step m r t) as [r1|] eqn:E; [|discriminate].
    eapply IH; eauto.
Qed.

(** What one load step does to each variable. *)
Lemma load_step_effect (arg_N : Z) (r r' : Run') (t : F) :
  load_step (model arg_N) r t = Some r' ->
  state r' = prescribed arg_N t
  /\ alpha_lb r' = alpha_lb r /\ alpha_ub r' = alpha_ub r
  /\ calls r' = calls r ++ step_calls t
  /\ load (history_data r') = load (history_data r) ++ [t]
  /\ alpha_t (history_data r')
     = alpha_t (history_data r) ++ [alpha (prescribed arg_N t)]
  /\ u_t (history_data r') = u_t (history_data r) ++ [u (prescribed arg_N t)].
Proof.
  step_cases r t. intros H. injection H as <-. simpl. repeat split.
Qed.

Lemma load_step_lengths (arg_N : Z) (r r' : Run') (t : F) (n : nat) :
  load_step (model arg_N) r t = Some r' ->
  history_lengths (history_data r) n ->
  history_lengths (history_data r') (S n).
Proof.
  step_cases r t. intros H. injection H as <-.
  unfold history_lengths. simpl. rewrite !length_app. simpl.
  intros Hn. decompose [and] Hn. repeat split; lia.
Qed.

Lemma load_step_energies (arg_N : Z) (r r' : Run') (t : F) (n : nat) :
  load_step (model arg_N) r t = Some r' ->
  history_lengths (history_data r) n ->
  energies_add_up (history_data r) ->
  energies_add_up (history_data r').
Proof.
  step_cases r t. intros H. injection H as <-.
  unfold history_lengths, energies_add_up. simpl.
  intros Hn Hsum i e f. decompose [and] Hn.
  destruct (Nat.lt_ge_cases i n) as [Hi|Hi].
  - rewrite !nth_error_app1 by lia. apply Hsum.
  - rewrite !nth_error_app2 by lia.
    replace (i - List.length (elastic_energy (history_data r)))%nat
      with (i - n)%nat by lia.
    replace (i - List.length (fracture_energy (history_data r)))%nat
      with (i - n)%nat by lia.
    replace (i - List.length (total_energy (history_data r)))%nat
      with (i - n)%nat by lia.
    destruct (i - n)%nat as [|j]; simpl.
    + intros [= <-] [= <-]. reflexivity.
    + destruct j; discriminate.
Qed.

(** The loop as a whole. *)
Lemma load_loop_effect (arg_N : Z) (loads : list F) :
  forall (r r' : Run') (n : nat),
    load_loop (model arg_N) r loads = Some r' ->
    history_lengths (history_data r) n ->
    energies_add_up (history_data r) ->
    alpha_lb r' = alpha_lb r /\ alpha_ub r' = alpha_ub r
    /\ calls r' = calls r ++ flat_map step_calls loads
    /\ load (history_data r') = load (history_data r) ++ loads
    /\ alpha_t (history_data r')
       = alpha_t (history_data r)
           ++ map (fun t => alpha (prescribed arg_N t)) loads
    /\ u_t (history_data r')
       = u_t (history_data r) ++ map (fun t => u (prescribed arg_N t)) loads
    /\ history_lengths (history_data r') (n + List.length loads)
    /\ energies_add_up (history_data r').
Proof.
  induction loads as [|t loads IH]; simpl; intros r r' n Hrun Hn Hsum.
  - injection Hrun as <-. rewrite !app_nil_r, Nat.add_0_r. splits; (reflexivity || assumption).
  - destruct (load_step (model arg_N) r t) as [r1|] eqn:E; [|discriminate].
    destruct (load_step_effect _ _ _ _ E) as (_ & Hlb & Hub & Hc & Hl & Ha & Hu).
    pose proof (load_step_lengths _ _ _ _ _ E Hn) as Hn1.
    pose proof (load_step_energies _ _ _ _ _ E Hn Hsum) as Hsum1.
    destruct (IH _ _ _ Hrun Hn1 Hsum1)
      as (Hlb' & Hub' & Hc' & Hl' & Ha' & Hu' & Hn' & Hsum').
    rewrite Hlb', Hub', Hc', Hl', Ha', Hu', Hlb, Hub, Hc, Hl, Ha, Hu.
    rewrite <- !app_assoc. simpl.
    replace (n + S (List.length loads))%nat with (S n + List.length loads)%nat by lia.
    splits; (reflexivity || assumption).
Qed.

Lemma initial_lengths (arg_N : Z) (w : World) :
  history_lengths (history_data (initial (Eigs:=Eigs) (ConeData:=ConeData) arg_N w)) 0.
Proof. unfold history_lengths. simpl. repeat split. Qed.

Lemma initial_energies (arg_N : Z) (w : World) :
  energies_add_up (history_data (initial (Eigs:=Eigs) (ConeData:=ConeData) arg_N w)).
Proof. intros [|i] e f; discriminate. Qed.

(** The run from the initial variables over any load sequence. *)
Lemma run_effect (arg_N : Z) (w : World) (loads : list F) :
  exists r : Run',
    load_loop (model arg_N) (initial arg_N w) loads = Some r
    /\ alpha_lb r = map (fun _ => of_Z 0) (range arg_N)
    /\ alpha_ub r = map (fun _ => of_Z 1) (range arg_N)
    /\ calls r = [AlternateMinimisation_init; BifurcationSolver_init;
                  StabilitySolver_init] ++ flat_map step_calls loads
    /\ load (history_data r) = loads
    /\ alpha_t (history_data r) = map (fun t => alpha (prescribed arg_N t)) loads
    /\ u_t (history_data r) = map (fun t => u (prescribed arg_N t)) loads
    /\ history_lengths (history_data r) (List.length loads)
    /\ energies_add_up (history_data r).
Proof.
  destruct (load_loop_total arg_N loads (initial arg_N w)) as [r Hrun].
  exists r. split; [exact Hrun|].
  destruct (load_loop_effect _ _ _ _ _ Hrun (initial_lengths arg_N w)
              (initial_energies arg_N w))
    as (Hlb & Hub & Hc & Hl & Ha & Hu & Hn & Hsum).
  splits; assumption.
Qed.

End DriverFacts.

Section LoadSequence.
Context {F : Type} {A : Arith F}.

(** [np.linspace(start, stop, 30)]: 29 computed entries, then [stop]. *)
Lemma linspace_30 (start stop : F) :
  let delta := (stop - start)%ar in
  let step := (delta / of_Z 29)%ar in
  linspace start stop 30
  = map (fun i => if (step =? of_Z 0)%ar
                  then (of_Z i / of_Z 29 * delta + start)%ar
                  else (of_Z i * step + start)%ar) (range 29)
    ++ [stop].
Proof.
  intros delta step. unfold linspace. simpl (0 <? 30 - 1)%Z. cbv iota.
  change (30 - 1)%Z with 29%Z. fold delta. fold step.
  change (range 30) with (range 29 ++ [29%Z]).
  destruct (step =? of_Z 0)%ar; rewrite !map_app; cbn [map];
    rewrite removelast_last, map_map; reflexivity.
Qed.

Lemma length_linspace_30 (start stop : F) :
  List.length (linspace start stop 30) = 30%nat.
Proof.
  rewrite linspace_30. rewrite length_app, length_map, length_range. reflexivity.
Qed.

Lemma length_loads_of (arg_N : Z) (loading_min : F) :
  List.length (Driver.loads_of arg_N loading_min) = 30%nat.
Proof. apply length_linspace_30. Qed.
End LoadSequence.

Section DriverClaims.
Import Driver.
Context {F : Type} {A : Arith F} {World Eigs ConeData : Type}.
Context {Sv : Solvers F World Eigs ConeData}.

Let Run' := Run F World Eigs ConeData.

Lemma no_solve_in_step_calls (loads : list F) :
  ~ In AlternateMinimisation_solve (flat_map step_calls loads).
Proof.
  rewrite in_flat_map. intros (t & _ & Hin). unfold step_calls in Hin.
  simpl in Hin. intuition discriminate.
Qed.

(** Every step of a run has its three energies, and the total recorded is
    the sum [elastic_energy + fracture_energy] of the two recorded with
    it. *)
Lemma run_energies (arg_N : Z) (w : World) (loads : list F) :
  exists r : Run',
    load_loop (model arg_N) (initial arg_N w) loads = Some r
    /\ forall i, (i < List.length loads)%nat ->
         exists e f,
           nth_error (elastic_energy (history_data r)) i = Some e
           /\ nth_error (fracture_energy (history_data r)) i = Some f
           /\ nth_error (total_energy (history_data r)) i = Some (e + f)%ar.
Proof.
  destruct (run_effect (Sv:=Sv) arg_N w loads)
    as (r & Hrun & _ & _ & _ & _ & _ & _ & Hn & Hsum).
  exists r. split; [exact Hrun|]. intros i Hi.
  destruct Hn as (_ & He & Hf & _).
  destruct (nth_error (elastic_energy (history_data r)) i) as [e|] eqn:Ee;
    [|apply nth_error_None in Ee; lia].
  destruct (nth_error (fracture_energy (history_data r)) i) as [f|] eqn:Ef;
    [|apply nth_error_None in Ef; lia].
  exists e, f. splits; try reflexivity. now apply Hsum.
Qed.

(** C6. In the driver, [_AlternateMinimisation.solve] is not among the calls
    of a run: the driver builds the object once before the loop and each
    pass through the loop calls [_homogeneous_state], the stability solver
    and the cone solver only.  The state every load step leaves, and the
    damage and displacements it records, are those of the analytic formula
    at that load alone: the elastic branch when [t <= t_c], the damaging
    branch otherwise. *)
Theorem homogeneous_driver_bypasses_solve (arg_N : Z) (w : World)
    (loads : list F) :
  exists r : Run',
    load_loop (model arg_N) (initial arg_N w) loads = Some r
    /\ ~ In AlternateMinimisation_solve (calls r)
    /\ calls r = [AlternateMinimisation_init; BifurcationSolver_init;
                  StabilitySolver_init] ++ flat_map step_calls loads
    /\ alpha_t (history_data r) = map (fun t => alpha (prescribed arg_N t)) loads
    /\ u_t (history_data r) = map (fun t => u (prescribed arg_N t)) loads
    /\ (forall (r0 r1 : Run') (t : F),
          load_step (model arg_N) r0 t = Some r1 ->
          state r1 = prescribed arg_N t)
    /\ _critical_load (model arg_N) = Some tc_model
    /\ (forall t : F,
          prescribed arg_N t
          = if (t <=? tc_model)%ar then elastic_branch t arg_N
            else damaging_branch tc_model t (k (model arg_N)) arg_N).
Proof.
  destruct (run_effect (Sv:=Sv) arg_N w loads)
    as (r & Hrun & _ & _ & Hc & _ & Ha & Hu & _ & _).
  exists r. splits; try assumption; try reflexivity.
  - rewrite Hc. intros [H|[H|[H|H]]]; try discriminate.
    exact (no_solve_in_step_calls loads H).
  - intros r0 r1 t H. now destruct (load_step_effect _ _ _ _ H).
Qed.

(** C7. After the load loop has run over a load sequence [t_1, ..., t_n]
    (ascending or not), every list of [history_data] has exactly [n]
    entries and [history_data["load"]] is [t_1, ..., t_n] in that order;
    each load step appends its load at the end of the list it found.  The
    driver's own sequence has 30 loads. *)
Theorem history_append_only (arg_N : Z) (w : World) (loads : list F) :
  (exists r : Run',
     load_loop (model arg_N) (initial arg_N w) loads = Some r
     /\ history_lengths (history_data r) (List.length loads)
     /\ load (history_data r) = loads)
  /\ (forall (r0 r1 : Run') (t : F) (n : nat),
        load_step (model arg_N) r0 t = Some r1 ->
        load (history_data r1) = load (history_data r0) ++ [t]
        /\ (history_lengths (history_data r0) n ->
            history_lengths (history_data r1) (S n)))
  /\ (forall loading_min : F,
        exists r : Run',
          discrete_atk arg_N loading_min w = Some r
          /\ history_lengths (history_data r) 30
          /\ load (history_data r) = loads_of arg_N loading_min).
Proof.
  splits.
  - destruct (run_effect (Sv:=Sv) arg_N w loads)
      as (r & Hrun & _ & _ & _ & Hl & _ & _ & Hn & _).
    exists r. splits; assumption.
  - intros r0 r1 t n H. split.
    + now destruct (load_step_effect _ _ _ _ H) as (_ & _ & _ & _ & Hl & _).
    + exact (load_step_lengths _ _ _ _ _ H).
  - intros loading_min.
    destruct (run_effect (Sv:=Sv) arg_N w (loads_of arg_N loading_min))
      as (r & Hrun & _ & _ & _ & Hl & _ & _ & Hn & _).
    exists r. rewrite length_loads_of in Hn. splits; assumption.
Qed.

(** C9. [alpha_lb] is zero at every degree of freedom when the load loop
    starts, no load step changes it, and it is still the same vector after
    the loop has run over any load sequence: the lower bound is never
    raised to the damage of a previous step. *)
Theorem alpha_lb_never_updated (arg_N : Z) (w : World) (loads : list F) :
  alpha_lb (initial (Eigs:=Eigs) (ConeData:=ConeData) arg_N w)
  = map (fun _ => of_Z 0) (range arg_N)
  /\ (forall (r0 r1 : Run') (t : F),
        load_step (model arg_N) r0 t = Some r1 -> alpha_lb r1 = alpha_lb r0)
  /\ (exists r : Run',
        load_loop (model arg_N) (initial arg_N w) loads = Some r
        /\ alpha_lb r = alpha_lb (initial (Eigs:=Eigs) (ConeData:=ConeData) arg_N w)).
Proof.
  splits.
  - reflexivity.
  - intros r0 r1 t H. now destruct (load_step_effect _ _ _ _ H) as (_ & Hlb & _).
  - destruct (run_effect (Sv:=Sv) arg_N w loads) as (r & Hrun & Hlb & _).
    exists r. split; [exact Hrun|]. exact Hlb.
Qed.

End DriverClaims.

(** C4. For every load step of a run, the value appended to
    [history_data["total_energy"]] is the sum, in the program's own
    arithmetic, of the values appended to [history_data["elastic_energy"]]
    and [history_data["fracture_energy"]] at that step (first part: any
    arithmetic, binary64 included); read in the real numbers, it is within
    the relative tolerance [1e-10] of that sum (second part). *)
Theorem energy_accounting :
  (forall (F : Type) (A : Arith F) (World Eigs ConeData : Type)
          (Sv : Driver.Solvers F World Eigs ConeData)
          (arg_N : Z) (w : World) (loads : list F),
     exists r : Driver.Run F World Eigs ConeData,
       Driver.load_loop (Driver.model arg_N) (Driver.initial arg_N w) loads = Some r
       /\ forall i, (i < List.length loads)%nat ->
            exists e f,
              nth_error (Driver.elastic_energy (Driver.history_data r)) i = Some e
              /\ nth_error (Driver.fracture_energy (Driver.history_data r)) i = Some f
              /\ nth_error (Driver.total_energy (Driver.history_data r)) i
                 = Some (e + f)%ar)
  /\ (forall (World Eigs ConeData : Type)
             (Sv : Driver.Solvers R World Eigs ConeData)
             (arg_N : Z) (w : World) (loads : list R),
        exists r : Driver.Run R World Eigs ConeData,
          Driver.load_loop (Driver.model arg_N) (Driver.initial arg_N w) loads = Some r
          /\ forall i, (i < List.length loads)%nat ->
               exists e f tot,
                 nth_error (Driver.elastic_energy (Driver.history_data r)) i = Some e
                 /\ nth_error (Driver.fracture_energy (Driver.history_data r)) i = Some f
                 /\ nth_error (Driver.total_energy (Driver.history_data r)) i = Some tot
                 /\ (Rabs (tot - (e + f)) <= 1e-10 * Rabs (e + f))%R
                 /\ rel_close 1e-10%R tot (e + f)%R = true).
Proof.
  split.
  - intros. apply run_energies.
  - intros World Eigs ConeData Sv arg_N w loads.
    destruct (run_energies (Sv:=Sv) arg_N w loads) as (r & Hrun & H).
    exists r. split; [exact Hrun|]. intros i Hi.
    destruct (H i Hi) as (e & f & He & Hf & Ht).
    exists e, f, (e + f)%R. splits; try assumption.
    + replace (e + f - (e + f))%R with 0%R by lra. rewrite Rabs_R0.
      pose proof (Rabs_pos (e + f)). lra.
    + unfold rel_close. simpl.
      destruct (Rle_dec (Rabs (e + f - (e + f))) (1e-10 * Rabs (e + f))) as [_|n];
        [reflexivity|].
      exfalso. apply n.
      replace (e + f - (e + f))%R with 0%R by lra. rewrite Rabs_R0.
      pose proof (Rabs_pos (e + f)). lra.
Qed.

(** ** The load sequence and the bounds, in exact arithmetic *)

Lemma nth_map_in {X Y : Type} (f : X -> Y) (l : list X) (i : nat) (d : X) (e : Y) :
  (i < List.length l)%nat -> nth i (map f l) e = f (nth i l d).
Proof.
  intros Hi. rewrite nth_indep with (d' := f d) by now rewrite length_map.
  apply map_nth.
Qed.

(** The loads of the driver: entry [i < 29] is [i * step + loading_min] with
    [step = (4 - loading_min) / 29], entry 29 is [4]. *)
Lemma loads_of_exact (arg_N : Z) (loading_min : R) (i : nat) :
  (loading_min < 4)%R ->
  ((i < 29)%nat ->
     nth i (Driver.loads_of arg_N loading_min) 0%R
     = (IZR (Z.of_nat i) * ((4 - loading_min) / 29) + loading_min)%R)
  /\ nth 29 (Driver.loads_of arg_N loading_min) 0%R = 4%R.
Proof.
  intros Hmin. unfold Driver.loads_of. rewrite linspace_30. cbv zeta.
  change (k (Driver.model arg_N)) with 4%Z.
  cbn [feqb fsub fdiv fmul fadd of_Z R_Arith].
  destruct (Req_dec_T ((4 - loading_min) / 29) 0) as [E|_]; [exfalso; lra|].
  split.
  - intros Hi. rewrite app_nth1 by (rewrite length_map, length_range; exact Hi).
    rewrite nth_map_in with (d := 0%Z) by (rewrite length_range; exact Hi).
    rewrite nth_range by exact Hi. reflexivity.
  - rewrite app_nth2 by (rewrite length_map, length_range; apply Nat.le_refl).
    rewrite length_map, length_range. reflexivity.
Qed.

Lemma loads_of_range (arg_N : Z) (loading_min : R) (i : nat) :
  (loading_min < 4)%R -> (i < 30)%nat ->
  let t := nth i (Driver.loads_of arg_N loading_min) 0%R in
  (loading_min <= t <= 4)%R /\ (t = 4%R <-> i = 29%nat).
Proof.
  intros Hmin Hi t. subst t.
  destruct (loads_of_exact arg_N loading_min i Hmin) as [Hlt Hlast].
  destruct (Nat.eq_dec i 29) as [->|Hne].
  - rewrite Hlast. split; [lra|]. split; reflexivity.
  - rewrite Hlt by lia.
    assert (Hx : (0 <= IZR (Z.of_nat i) <= 28)%R)
      by (split; apply IZR_le; lia).
    remember (IZR (Z.of_nat i)) as x eqn:Ex.
    assert (Hd : (0 < 4 - loading_min)%R) by lra.
    remember (4 - loading_min)%R as d eqn:Ed.
    assert (Hxd : (0 <= x * d <= 28 * d)%R) by nra.
    replace (x * (d / 29))%R with (x * d / 29)%R by (unfold Rdiv; ring).
    split; [lra|]. split; [intros H; exfalso; lra|intros H; contradiction].
Qed.

(** The damage the driver prescribes at load [t]. *)
Lemma alpha_prescribed_exact (arg_N : Z) (t : R) :
  alpha (prescribed arg_N t)
  = map (fun _ => if Rle_dec t 1 then 0%R else ((t / 1 - 1) / (4 - 1))%R)
        (range arg_N).
Proof.
  unfold prescribed. rewrite tc_model_R. simpl.
  destruct (Rle_dec t 1); simpl.
  - reflexivity.
  - apply map_ext. intros _. change (IZR (4 - 1)) with 3%R. lra.
Qed.


(** ** The alternate minimisation loop *)

Section SolveFacts.
Import _AlternateMinimisation.
Context {F : Type} {A : Arith F} {World : Type} {E : Externals F World}.

Let AM := t F World.

(** One pass through the body: every list of [data] gets one more entry;
    the entry of [error_alpha_max] is the largest entry of the increment
    [alpha - alpha_old]; the stopping test is taken on the two entries of
    [error_residual_F] and [error_alpha_H1]. *)
Lemma body_effect (self self' : AM) (i : Z) (brk : bool) (e : F) :
  body self i = (self', brk, e) ->
  solver_parameters self' = solver_parameters self
  /\ alpha_lb self' = alpha_lb self /\ alpha_ub self' = alpha_ub self
  /\ alpha_old self' = alpha (state self')
  /\ iteration (data self') = iteration (data self) ++ [i]
  /\ error_alpha_H1 (data self') = error_alpha_H1 (data self) ++ [e]
  /\ error_alpha_max (data self')
     = error_alpha_max (data self)
         ++ [vec_max (increment (alpha (state self')) (alpha_old self))]
  /\ (exists res,
        error_residual_F (data self') = error_residual_F (data self) ++ [res]
        /\ brk = stop (solver_parameters self) res e)
  /\ (forall n, data_lengths (data self) n -> data_lengths (data self') (S n)).
Proof.
  unfold body.
  destruct (elasticity_solve (petsc self) (state self)) as [[w u'] [uit ur]].
  destruct (damage_solve w (mkState u' (alpha (state self))) (alpha_lb self)
              (alpha_ub self)) as [[w' alpha'] [ait ar]].
  intros [= <- <- <-]. simpl. splits; try reflexivity.
  - eexists. split; reflexivity.
  - unfold data_lengths. simpl. intros n Hn. rewrite !length_app. simpl.
    decompose [and] Hn. splits; lia.
Qed.

(** The stopping test reads the configured metric only. *)
Lemma stop_residual_u (cfg : DamageElasticity F) (res h1 : F) :
  criterion cfg = "residual_u"%string ->
  stop cfg res h1 = (res <=? alpha_rtol cfg)%ar.
Proof.
  intros Hc. unfold stop. rewrite Hc. simpl. now rewrite orb_false_r.
Qed.

Lemma stop_alpha_H1 (cfg : DamageElasticity F) (res h1 : F) :
  criterion cfg = "alpha_H1"%string ->
  stop cfg res h1 = (h1 <=? alpha_rtol cfg)%ar.
Proof. intros Hc. unfold stop. rewrite Hc. reflexivity. Qed.

(** When the loop returns, the pass that broke out of it recorded the last
    entries, and the stopping test held on them. *)
Lemma loop_returned (its : list Z) :
  forall (self self' : AM) (last : option (Z * F)),
    loop its self last = Returned self' ->
    exists res h1,
      ends_with (error_residual_F (data self')) res
      /\ ends_with (error_alpha_H1 (data self')) h1
      /\ stop (solver_parameters self) res h1 = true.
Proof.
  induction its as [|i its IH]; simpl; intros self self' last Hloop.
  - destruct last as [[i e]|]; discriminate.
  - destruct (body self i) as [[s1 brk] e] eqn:Eb.
    destruct (body_effect _ _ _ _ _ Eb)
      as (Hcfg & _ & _ & _ & _ & Hh1 & _ & (res & Hres & Hbrk) & _).
    destruct brk.
    + injection Hloop as <-. exists res, e. splits.
      * eexists; exact Hres.
      * eexists; exact Hh1.
      * now symmetry.
    + destruct (IH _ _ _ Hloop) as (res' & h1' & H1 & H2 & H3).
      exists res', h1'. rewrite <- Hcfg. splits; assumption.
Qed.

(** When the stopping test fails at every pass, the loop runs the body
    over all of [its] and raises; the error carries the last value of
    [iteration] and the last [error_alpha_H1]. *)
Lemma loop_exhausted (its : list Z) :
  forall (self : AM) (last : option (Z * F)),
    never_stops its self = true ->
    loop its self last
    = match its, last with
      | [], None => UnboundLocalError self
      | [], Some (i, e) => RuntimeError self i e
      | _ :: _, _ =>
          RuntimeError (run_body its self)
            (List.last its 0%Z)
            (List.last (error_alpha_H1 (data (run_body its self))) (of_Z 0))
      end.
Proof.
  induction its as [|i its IH]; simpl; intros self last Hn.
  - destruct last as [[i e]|]; reflexivity.
  - destruct (body self i) as [[s1 brk] e] eqn:Eb. simpl in *.
    apply andb_prop in Hn as [Hb Hn]. destruct brk; [discriminate|].
    rewrite (IH _ _ Hn).
    destruct its as [|j its'].
    + simpl.
      destruct (body_effect _ _ _ _ _ Eb) as (_ & _ & _ & _ & _ & Hh1 & _).
      rewrite Hh1, last_last. reflexivity.
    + reflexivity.
Qed.

Lemma run_body_lengths (its : list Z) :
  forall (self : AM) (n : nat),
    data_lengths (data self) n ->
    data_lengths (data (run_body its self)) (n + List.length its).
Proof.
  induction its as [|i its IH]; simpl; intros self n Hn.
  - now rewrite Nat.add_0_r.
  - destruct (body self i) as [[s1 brk] e] eqn:Eb. simpl.
    destruct (body_effect _ _ _ _ _ Eb) as (_ & _ & _ & _ & _ & _ & _ & _ & Hl).
    replace (n + S (List.length its))%nat with (S n + List.length its)%nat by lia.
    apply IH, Hl, Hn.
Qed.

Lemma last_range (n : Z) : (1 <= n)%Z -> List.last (range n) 0%Z = (n - 1)%Z.
Proof.
  intros Hn. replace n with (n - 1 + 1)%Z at 1 by lia.
  rewrite range_succ by lia. apply last_last.
Qed.

(** X16. What [solve] does when the stopping test fails at each of the
    [max_it >= 1] passes: it raises, the error carries [max_it - 1] (the
    last value of the loop variable) and the last [error_alpha_H1], and
    every list of [data] has [max_it] entries. *)
Lemma solve_exhausted (self : AM) :
  let cfg := solver_parameters self in
  let its := range (max_it cfg) in
  let self0 := with_data self empty_data in
  (1 <= max_it cfg)%Z ->
  never_stops its self0 = true ->
  solve self
  = RuntimeError (run_body its self0) (max_it cfg - 1)
      (List.last (error_alpha_H1 (data (run_body its self0))) (of_Z 0))
  /\ data_lengths (data (run_body its self0)) (Z.to_nat (max_it cfg)).
Proof.
  intros cfg its self0 Hmax Hnever. split.
  - unfold solve. fold cfg. fold self0. fold its.
    rewrite (loop_exhausted its self0 None Hnever).
    pose proof (last_range (max_it cfg) Hmax) as Hlast. fold its in Hlast.
    destruct its as [|i its'] eqn:Eits.
    + exfalso. apply (f_equal (@List.length Z)) in Eits. unfold its in Eits.
      rewrite length_range in Eits. simpl in Eits. lia.
    + rewrite Hlast. reflexivity.
  - replace (Z.to_nat (max_it cfg)) with (0 + List.length its)%nat
      by (unfold its; rewrite length_range; lia).
    apply run_body_lengths. unfold data_lengths. simpl. splits; reflexivity.
Qed.

(** C1. When [solve] returns, the last value recorded for the configured
    metric is at most [alpha_rtol]: [error_residual_F] under
    ['residual_u'], [error_alpha_H1] under ['alpha_H1'].  The stopping test
    is a function of that metric alone: the other metric of the two it is
    given does not change it, and the L2 error, the max error and the norm
    of the gradients are not given to it. *)
Theorem stopping_criterion_satisfied (self self' : AM) :
  solve self = Returned self' ->
  let cfg := solver_parameters self in
  (criterion cfg = "residual_u"%string ->
     (exists m, ends_with (error_residual_F (data self')) m
                /\ (m <=? alpha_rtol cfg)%ar = true)
     /\ forall res h1 h1', stop cfg res h1 = stop cfg res h1')
  /\ (criterion cfg = "alpha_H1"%string ->
        (exists m, ends_with (error_alpha_H1 (data self')) m
                   /\ (m <=? alpha_rtol cfg)%ar = true)
        /\ forall res res' h1, stop cfg res h1 = stop cfg res' h1).
Proof.
  intros Hsolve cfg. unfold solve in Hsolve.
  destruct (loop_returned _ _ _ _ Hsolve) as (res & h1 & Hres & Hh1 & Hstop).
  simpl in Hstop. fold cfg in Hstop. split; intros Hc.
  - rewrite (stop_residual_u _ _ _ Hc) in Hstop. split.
    + exists res. split; assumption.
    + intros. now rewrite !(stop_residual_u _ _ _ Hc).
  - rewrite (stop_alpha_H1 _ _ _ Hc) in Hstop. split.
    + exists h1. split; assumption.
    + intros. now rewrite !(stop_alpha_H1 _ _ _ Hc).
Qed.

End SolveFacts.

(** The theorem at a run that converges at its first pass. *)
Lemma stopping_criterion_witness :
  exists self',
    _AlternateMinimisation.solve (E:=Examples.converging_externals)
      Examples.converging_am = _AlternateMinimisation.Returned self'
    /\ exists m,
         ends_with (_AlternateMinimisation.error_residual_F
                      (_AlternateMinimisation.data self')) m
         /\ PrimFloat.leb m Examples.rtol64 = true.
Proof.
  eexists. split.
  - vm_compute. reflexivity.
  - refine (proj1 (proj1 (stopping_criterion_satisfied
                            (E:=Examples.converging_externals)
                            Examples.converging_am _ _) _)).
    + vm_compute. reflexivity.
    + reflexivity.
Defined.

(** In that run the metrics that are not configured are above the tolerance
    when [solve] returns: nothing bounds them. *)
Example returned_with_other_metrics_above_tolerance :
  let self' := _AlternateMinimisation.self_of
                 (_AlternateMinimisation.solve (E:=Examples.converging_externals)
                    Examples.converging_am) in
  let d := _AlternateMinimisation.data self' in
  _AlternateMinimisation.error_residual_F d = [0%float]
  /\ _AlternateMinimisation.error_alpha_max d = [0.5%float]
  /\ forallb (fun m => negb (PrimFloat.leb m Examples.rtol64))
       (_AlternateMinimisation.error_alpha_H1 d
        ++ _AlternateMinimisation.error_alpha_L2 d
        ++ _AlternateMinimisation.error_alpha_max d) = true.
Proof. vm_compute. repeat split. Qed.

(** C2 (what the code does at [max_it = 3] when the test fails three
    times).  [solve] raises [RuntimeError]; every list of [data] has 3
    entries and the error carries the last [error_alpha_H1]; the number it
    carries in "Could not converge after ... iterations" is [2], the last
    value of the loop variable, one less than the 3 iterations made. *)
Theorem exhausted_loop_reports_last_index :
  let self := Examples.stalling_am in
  _AlternateMinimisation.max_it (_AlternateMinimisation.solver_parameters self) = 3%Z
  /\ _AlternateMinimisation.never_stops (E:=Examples.stalling_externals)
       (range 3) self = true
  /\ exists self' e,
       _AlternateMinimisation.solve (E:=Examples.stalling_externals) self
       = _AlternateMinimisation.RuntimeError self' 2 e
       /\ ends_with (_AlternateMinimisation.error_alpha_H1
                       (_AlternateMinimisation.data self')) e
       /\ _AlternateMinimisation.iteration (_AlternateMinimisation.data self')
          = [0; 1; 2]%Z
       /\ _AlternateMinimisation.data_lengths (_AlternateMinimisation.data self') 3.
Proof.
  cbv zeta. splits; try reflexivity.
  eexists. eexists. splits.
  - vm_compute. reflexivity.
  - exists [0.625; 0]%float. reflexivity.
  - reflexivity.
  - unfold _AlternateMinimisation.data_lengths. simpl. splits; reflexivity.
Qed.

(** C8 (what the code records when the damage decreases).  From the
    previous damage [[0.5, 0.5]] the damage solver answers [[0.125, 0]]: the
    increment is [[-0.375, -0.5]], its max-norm is [0.5], and the value
    recorded as [error_alpha_max] is [-0.375], the largest entry of the
    increment with its sign. *)
Theorem error_alpha_max_is_signed_maximum :
  let self := Examples.stalling_am in
  let out := _AlternateMinimisation.body (E:=Examples.stalling_externals) self 0 in
  let self' := fst (fst out) in
  _AlternateMinimisation.increment
      (alpha (_AlternateMinimisation.state self'))
      (_AlternateMinimisation.alpha_old self) = [-0.375; -0.5]%float
  /\ _AlternateMinimisation.max_norm_spec [-0.375; -0.5]%float = 0.5%float
  /\ _AlternateMinimisation.error_alpha_max (_AlternateMinimisation.data self')
     = [(-0.375)%float]
  /\ PrimFloat.eqb (-0.375) 0.5 = false.
Proof. vm_compute. repeat split. Qed.

(** ** The state at the critical load *)

(** C10 (as stated, at [N = 10] in binary64).  The critical load is [1.0];
    at node 3 the elastic branch gives [3 * 1.0 / 10], the binary64 number
    nearest to 0.3, and the damaging-branch formula [(1.0 / 10) * 3] gives
    the next binary64 number above it (0.30000000000000004): the two lists
    of displacements are not the same. *)
Lemma threshold_displacements_differ_N10 :
  _critical_load (F:=float) (Driver.model 10) = Some 1%float
  /\ nth 3 (u (elastic_branch 1%float 10)) 0%float = (3 / 10)%float
  /\ nth 3 (u (damaging_branch 1%float 1%float 4 10)) 0%float = (1 / 10 * 3)%float
  /\ PrimFloat.ltb (3 / 10) (1 / 10 * 3) = true
  /\ (1 / 10 * 3)%float = PrimFloat.next_up (3 / 10)
  /\ u (damaging_branch 1%float 1%float 4 10) <> u (elastic_branch 1%float 10).
Proof.
  splits; try reflexivity.
  intros H.
  apply (f_equal (fun l => PrimFloat.eqb (nth 3 l 0%float) (3 / 10))) in H.
  vm_compute in H. discriminate.
Qed.

(** C10 (amended).  With the driver's parameters the critical load is [1]
    and at [t = t_c] the guard [t <= t_c] holds: [_homogeneous_state] takes
    the elastic branch, every damage cell is [0.0] and the displacements are
    [i * t / N].  The damage of the damaging branch at [t = t_c],
    [(t/t_c - 1)/(k - 1)], is the same [0.0]; its displacements
    [(t / N) * i] are the same list in binary64 for [N = 2], and for every
    [N] in exact arithmetic. *)
Theorem threshold_state (arg_N : Z) :
  let matpar := Driver.model arg_N in
  (* binary64 *)
  (_critical_load (F:=float) matpar = Some 1%float
   /\ (forall st : State float,
         _homogeneous_state matpar st 1%float matpar
         = Some (elastic_branch 1%float arg_N))
   /\ alpha (elastic_branch 1%float arg_N) = map (fun _ => 0%float) (range arg_N)
   /\ u (elastic_branch 1%float arg_N)
      = map (fun i => (Z2float i * 1 / Z2float arg_N)%float) (range (arg_N + 1))
   /\ alpha (damaging_branch 1%float 1%float 4 arg_N)
      = alpha (elastic_branch 1%float arg_N)
   /\ ((1 / 1 - 1) / (4 - 1) = 0)%float
   /\ u (damaging_branch 1%float 1%float 4 2) = u (elastic_branch 1%float 2))
  (* exact arithmetic *)
  /\ (_critical_load (F:=R) matpar = Some 1%R
      /\ (forall st : State R,
            _homogeneous_state matpar st 1%R matpar
            = Some (elastic_branch 1%R arg_N))
      /\ alpha (elastic_branch 1%R arg_N) = map (fun _ => 0%R) (range arg_N)
      /\ u (elastic_branch 1%R arg_N)
         = map (fun i => (IZR i * 1 / IZR arg_N)%R) (range (arg_N + 1))
      /\ damaging_branch 1%R 1%R 4 arg_N = elastic_branch 1%R arg_N).
Proof.
  cbv zeta. split.
  - splits; reflexivity.
  - assert (Hc : _critical_load (F:=R) (Driver.model arg_N) = Some 1%R)
      by (rewrite critical_load_model; f_equal; apply tc_model_R).
    splits; try reflexivity.
    + exact Hc.
    + intros st. rewrite homogeneous_state_model. unfold prescribed.
      rewrite tc_model_R. simpl.
      destruct (Rle_dec 1 1) as [_|n]; [reflexivity|exfalso; lra].
    + unfold damaging_branch, elastic_branch. simpl. apply f_equal2.
      * apply map_ext. intros i. unfold Rdiv. ring.
      * apply map_ext. intros _. change (IZR (4 - 1)) with 3%R. lra.
Qed.

(** ** The bounds over the load sequence, run in binary64 *)

(** The run of the driver in binary64 with [loading.min = 0] and two cells:
    at each of the 30 loads every damage cell lies in [[0, 1]], and it is
    [1.0] at the last load and at no other. *)
Example bound_invariant_binary64 :
  List.length (Driver.loads_of (F:=float) 2 0%float) = 30%nat
  /\ forallb
       (fun it : nat * float =>
          match _homogeneous_state (Driver.model 2) (mkState [] []) (snd it)
                  (Driver.model 2) with
          | Some st =>
              forallb (fun a => PrimFloat.leb 0 a && PrimFloat.leb a 1
                                && Bool.eqb (PrimFloat.eqb a 1) (Nat.eqb (fst it) 29))
                      (alpha st)
              && Nat.eqb (List.length (alpha st)) 2
          | None => false
          end)
       (combine (seq 0 30) (Driver.loads_of 2 0%float)) = true.
Proof. split; vm_compute; reflexivity. Qed.

(** * Further properties of the code *)

(** ** [_critical_load] and [_homogeneous_state] *)

Section HomogeneousShape.
Context {F : Type} {A : Arith F}.

(** X1. For parameters whose integers convert to binary64 exactly and a
    state with [N] cells and [N + 1] nodes: [_homogeneous_state] fails
    exactly when the critical load does, on [mu * k = 0] in the enclosing
    [parameters["model"]]; when it succeeds, on either branch, the damage
    and the displacement it writes have the sizes of the vectors it
    overwrites. *)
Theorem homogeneous_state_shape (parameters_model matpar : MatPar)
    (st : State F) (t : F) :
  small_int (8 * w1 parameters_model) ->
  small_int (mu parameters_model * k parameters_model) ->
  small_int (k matpar - 1) ->
  small_int (N matpar + 1) ->
  List.length (alpha st) = Z.to_nat (N matpar) ->
  List.length (u st) = Z.to_nat (N matpar + 1) ->
  (_homogeneous_state parameters_model st t matpar = None
   <-> (mu parameters_model * k parameters_model = 0)%Z)
  /\ (_critical_load (F:=F) parameters_model = None
      <-> (mu parameters_model * k parameters_model = 0)%Z)
  /\ forall st',
       _homogeneous_state parameters_model st t matpar = Some st' ->
       List.length (alpha st') = List.length (alpha st)
       /\ List.length (u st') = List.length (u st).
Proof.
  intros _ _ _ _ Ha Hu. rewrite Ha, Hu.
  unfold _homogeneous_state, _critical_load. cbv zeta.
  destruct (mu parameters_model * k parameters_model =? 0)%Z eqn:E0.
  - apply Z.eqb_eq in E0. splits.
    + split; [intros _; exact E0|reflexivity].
    + split; [intros _; exact E0|reflexivity].
    + discriminate.
  - apply Z.eqb_neq in E0. splits.
    + split; [|contradiction].
      destruct (fleb t _); discriminate.
    + split; [discriminate|contradiction].
    + intros st'.
      destruct (fleb t _); intros [= <-]; simpl;
        rewrite !length_map, !length_range; split; reflexivity.
Qed.

End HomogeneousShape.

Lemma homogeneous_state_shape_witness :
  forallb (fun t : float =>
             match _homogeneous_state (Driver.model 2)
                     (mkState [0; 0; 0]%float [0; 0]%float) t (Driver.model 2) with
             | Some st' => Nat.eqb (List.length (alpha st')) 2
                           && Nat.eqb (List.length (u st')) 3
             | None => false
             end) [0.5; 2]%float = true
  /\ (_critical_load (F:=float) (Driver.model 2) = None <-> (1 * 4 = 0)%Z).
Proof.
  split; [reflexivity|].
  refine (proj1 (proj2 (homogeneous_state_shape (F:=float)
                          (Driver.model 2) (Driver.model 2)
                          (mkState [0; 0; 0]%float [0; 0]%float) 2%float
                          _ _ _ _ _ _)));
    try reflexivity; unfold small_int; simpl; lia.
Defined.

(** The displacement the driver prescribes, in exact arithmetic: the same
    list on both branches. *)
Lemma u_prescribed_exact (arg_N : Z) (t : R) :
  u (prescribed arg_N t)
  = map (fun i => (IZR i * t / IZR arg_N)%R) (range (arg_N + 1)).
Proof.
  unfold prescribed. destruct (fleb t tc_model); simpl.
  - reflexivity.
  - apply map_ext. intros i. unfold Rdiv. ring.
Qed.

(** X2. In exact arithmetic, with [N >= 1] cells, the displacement the
    driver prescribes at load [t] meets the two boundary conditions (zero at
    the first node, [t] at the last) and has the same increment [t / N]
    from each node to the next, on the elastic branch and on the damaging
    branch alike. *)
Theorem prescribed_displacement_uniform (arg_N : Z) (t : R) :
  (1 <= arg_N)%Z ->
  let uh := u (prescribed arg_N t) in
  nth 0 uh 0%R = 0%R
  /\ nth (Z.to_nat arg_N) uh 0%R = t
  /\ forall i : nat, (i < Z.to_nat arg_N)%nat ->
       (nth (S i) uh 0 - nth i uh 0 = t / IZR arg_N)%R.
Proof.
  intros HN uh. subst uh. rewrite u_prescribed_exact.
  assert (HNR : IZR arg_N <> 0%R) by (apply not_0_IZR; lia).
  assert (Hnth : forall i : nat, (i <= Z.to_nat arg_N)%nat ->
            nth i (map (fun i => (IZR i * t / IZR arg_N)%R) (range (arg_N + 1))) 0%R
            = (IZR (Z.of_nat i) * t / IZR arg_N)%R).
  { intros i Hi.
    rewrite nth_map_in with (d := 0%Z) by (rewrite length_range; lia).
    rewrite nth_range by lia. reflexivity. }
  splits.
  - rewrite Hnth by lia. simpl. unfold Rdiv. ring.
  - rewrite Hnth by lia. rewrite Z2Nat.id by lia. field. exact HNR.
  - intros i Hi. rewrite !Hnth by lia.
    rewrite Nat2Z.inj_succ, succ_IZR. field. exact HNR.
Qed.

Lemma prescribed_displacement_uniform_witness :
  nth 0 (u (prescribed 2 3%R)) 0%R = 0%R
  /\ nth 2 (u (prescribed 2 3%R)) 0%R = 3%R.
Proof.
  destruct (prescribed_displacement_uniform 2 3%R) as (H0 & HN & _); [lia|].
  split; [exact H0|exact HN].
Defined.

Lemma damage_at_mono (t1 t2 : R) :
  (t1 <= t2)%R -> (damage_at t1 <= damage_at t2)%R.
Proof.
  intros H. unfold damage_at.
  destruct (Rle_dec t1 1), (Rle_dec t2 1); lra.
Qed.

Lemma damage_at_bounds (t : R) :
  (0 <= damage_at t)%R /\ ((damage_at t <= 1)%R <-> (t <= 4)%R).
Proof.
  unfold damage_at. destruct (Rle_dec t 1); split; try lra; split; lra.
Qed.

Lemma alpha_prescribed_damage_at (arg_N : Z) (t : R) :
  alpha (prescribed arg_N t) = map (fun _ => damage_at t) (range arg_N).
Proof. apply alpha_prescribed_exact. Qed.

Lemma Forall_map_const_inv {X B : Type} (P : X -> Prop) (x : X) (l : list B) :
  l <> [] -> Forall P (map (fun _ => x) l) -> P x.
Proof.
  destruct l as [|b l]; [contradiction|]. intros _ H. now inversion H.
Qed.

Lemma range_nonempty (n : Z) : (1 <= n)%Z -> range n <> [].
Proof.
  intros Hn E. apply (f_equal (@List.length Z)) in E.
  rewrite length_range in E. simpl in E. lia.
Qed.

(** X3. In exact arithmetic the damage the driver prescribes never
    decreases when the load increases: for [t1 <= t2] every cell at [t1] is
    at most the same cell at [t2]. *)
Theorem prescribed_damage_monotone (arg_N : Z) (t1 t2 : R) :
  (t1 <= t2)%R ->
  Forall2 Rle (alpha (prescribed arg_N t1)) (alpha (prescribed arg_N t2)).
Proof.
  intros H. rewrite !alpha_prescribed_damage_at.
  apply Forall2_map_const, damage_at_mono, H.
Qed.

Lemma prescribed_damage_monotone_witness :
  Forall2 Rle (alpha (prescribed 2 (1 / 2)%R)) (alpha (prescribed 2 3%R)).
Proof. apply prescribed_damage_monotone. lra. Defined.

(** X4. [_homogeneous_state] does not clamp: in exact arithmetic, with
    [N >= 1] cells, the damage it prescribes is never negative, and it stays
    within the upper bound 1 exactly for the loads [t <= k = 4]; beyond the
    last load of the driver it exceeds [alpha_ub]. *)
Theorem prescribed_damage_within_bounds_iff (arg_N : Z) (t : R) :
  (1 <= arg_N)%Z ->
  Forall (fun x => (0 <= x)%R) (alpha (prescribed arg_N t))
  /\ (Forall (fun x => (x <= 1)%R) (alpha (prescribed arg_N t)) <-> (t <= 4)%R)
  /\ ((4 < t)%R -> Forall (fun x => (1 < x)%R) (alpha (prescribed arg_N t))).
Proof.
  intros HN. rewrite alpha_prescribed_damage_at.
  destruct (damage_at_bounds t) as [H0 H1]. splits.
  - apply Forall_map_const, H0.
  - split.
    + intros H. apply H1.
      exact (Forall_map_const_inv _ _ _ (range_nonempty _ HN) H).
    + intros H. apply Forall_map_const, H1, H.
  - intros H. apply Forall_map_const.
    destruct (Rle_or_lt (damage_at t) 1) as [Hle|Hlt]; [|exact Hlt].
    apply H1 in Hle. lra.
Qed.

Lemma prescribed_damage_within_bounds_witness :
  Forall (fun x => (1 < x)%R) (alpha (prescribed 2 5%R)).
Proof.
  destruct (prescribed_damage_within_bounds_iff 2 5%R) as (_ & _ & H); [lia|].
  apply H. lra.
Defined.

(** X5. In exact arithmetic, when [_critical_load] returns and [w1] has the
    sign of [mu * k] (or is zero), the value [t_c] it returns is the
    non-negative number with [t_c^2 = 2 * w1 / (mu * k)]; [N] plays no part
    in it. *)
Theorem critical_load_squared (matpar : MatPar) (tc : R) :
  _critical_load matpar = Some tc ->
  (0 <= w1 matpar * (mu matpar * k matpar))%Z ->
  (0 <= tc)%R
  /\ (tc * tc = 2 * IZR (w1 matpar) / IZR (mu matpar * k matpar))%R
  /\ forall n : Z,
       _critical_load {| mu := mu matpar; k := k matpar; w1 := w1 matpar; N := n |}
       = Some tc.
Proof.
  intros Hc Hsign.
  assert (HN : forall n : Z,
            _critical_load
              {| mu := mu matpar; k := k matpar; w1 := w1 matpar; N := n |}
            = Some tc) by (intros n; exact Hc).
  assert (Hval : (mu matpar * k matpar)%Z <> 0%Z
                 /\ tc = sqrt (IZR (8 * w1 matpar)
                              / IZR (mu matpar * k matpar) / 4)).
  { revert Hc. unfold _critical_load. cbv zeta.
    cbn [mu k w1 N fsqrt fdiv of_Z R_Arith].
    destruct (mu matpar * k matpar =? 0)%Z eqn:E0; [discriminate|].
    apply Z.eqb_neq in E0. intros H. split; [exact E0|congruence]. }
  destruct Hval as [E0 Etc].
  assert (Hb : IZR (mu matpar * k matpar) <> 0%R) by (apply not_0_IZR; exact E0).
  assert (Hab : (0 <= IZR (w1 matpar) * IZR (mu matpar * k matpar))%R)
    by (rewrite <- mult_IZR; apply IZR_le; exact Hsign).
  rewrite (mult_IZR 8 (w1 matpar)) in Etc.
  remember (IZR (w1 matpar)) as x eqn:Ex.
  remember (IZR (mu matpar * k matpar)) as y eqn:Ey.
  assert (Hq : (0 <= x / y)%R).
  { replace (x / y)%R with (x * y * / (y * y))%R by (field; exact Hb).
    apply Rmult_le_pos; [exact Hab|].
    left. apply Rinv_0_lt_compat. nra. }
  replace (8 * x / y / 4)%R with (2 * x / y)%R in Etc by (field; exact Hb).
  assert (Hpos : (0 <= 2 * x / y)%R).
  { replace (2 * x / y)%R with (2 * (x / y))%R by (field; exact Hb). lra. }
  splits.
  - rewrite Etc. apply sqrt_pos.
  - rewrite Etc. apply sqrt_sqrt, Hpos.
  - exact HN.
Qed.

Lemma critical_load_squared_witness :
  (1 * 1 = 2 * IZR 2 / IZR (1 * 4))%R.
Proof.
  destruct (critical_load_squared (Driver.model 2) 1%R) as (_ & H & _).
  - rewrite critical_load_model. f_equal. apply tc_model_R.
  - simpl. lia.
  - exact H.
Defined.

(** X6. In exact arithmetic, for [k > 1], the stiffness factor [a_atk] is 1
    on the sound material, 0 on the fully damaged one, and strictly
    decreasing in the damage over [[0, 1]]. *)
Theorem a_atk_degrades (_k : Z) :
  (1 < _k)%Z ->
  a_atk _k 0%R = 1%R
  /\ a_atk _k 1%R = 0%R
  /\ forall x y : R, (0 <= x)%R -> (x < y)%R -> (y <= 1)%R ->
       (a_atk _k y < a_atk _k x)%R.
Proof.
  intros Hk. unfold a_atk. simpl.
  assert (Hc : (0 < IZR (_k - 1))%R) by (apply IZR_lt; lia).
  remember (IZR (_k - 1)) as c eqn:Ec.
  splits.
  - field; lra.
  - field; lra.
  - intros x y Hx Hxy Hy.
    assert (Hdx : (0 < c * x + 1)%R) by nra.
    assert (Hdy : (0 < c * y + 1)%R) by nra.
    assert (D : (0 < (1 - x) / (c * x + 1) - (1 - y) / (c * y + 1))%R).
    { replace ((1 - x) / (c * x + 1) - (1 - y) / (c * y + 1))%R
        with ((c + 1) * (y - x) * / ((c * x + 1) * (c * y + 1)))%R
        by (field; split; lra).
      apply Rmult_lt_0_compat; [nra|].
      apply Rinv_0_lt_compat. nra. }
    lra.
Qed.

Lemma a_atk_degrades_witness :
  a_atk 4 0%R = 1%R /\ a_atk 4 1%R = 0%R.
Proof.
  destruct (a_atk_degrades 4) as (H0 & H1 & _); [lia|]. split; assumption.
Defined.

(** X7. In exact arithmetic, on the damaging branch of the driver
    ([t > t_c = 1]) the stiffness factor at the damage it prescribes is
    [(k - t) / ((k - 1) t)] with [k = 4]: it vanishes at the last load
    [t = k]. *)
Theorem stiffness_on_damaging_branch (arg_N : Z) (t : R) :
  (1 < t)%R ->
  Forall (fun x => a_atk 4 x = ((4 - t) / ((4 - 1) * t))%R
                   /\ (t = 4%R -> a_atk 4 x = 0%R))
         (alpha (prescribed arg_N t)).
Proof.
  intros Ht. rewrite alpha_prescribed_exact. apply Forall_map_const.
  destruct (Rle_dec t 1) as [Hle|_]; [exfalso; lra|].
  assert (E : a_atk 4 ((t / 1 - 1) / (4 - 1))%R = ((4 - t) / ((4 - 1) * t))%R).
  { unfold a_atk. simpl. change (IZR (4 - 1)) with 3%R. field. lra. }
  split; [exact E|].
  intros ->. rewrite E. field.
Qed.

Lemma stiffness_on_damaging_branch_witness :
  Forall (fun x => a_atk 4 x = ((4 - 4) / ((4 - 1) * 4))%R
                   /\ (4%R = 4%R -> a_atk 4 x = 0%R))
         (alpha (prescribed 2 4%R)).
Proof. apply stiffness_on_damaging_branch. lra. Defined.

(** ** The load sequence and the run of the driver *)

Lemma loads_of_first (arg_N : Z) (loading_min : R) :
  (loading_min < 4)%R -> nth 0 (Driver.loads_of arg_N loading_min) 0%R = loading_min.
Proof.
  intros Hmin.
  destruct (loads_of_exact arg_N loading_min 0 Hmin) as [H _].
  rewrite H by lia. simpl. lra.
Qed.

Lemma loads_of_step_up (arg_N : Z) (loading_min : R) (i : nat) :
  (loading_min < 4)%R -> (i < 29)%nat ->
  (nth i (Driver.loads_of arg_N loading_min) 0 <
   nth (S i) (Driver.loads_of arg_N loading_min) 0)%R.
Proof.
  intros Hmin Hi.
  destruct (Nat.eq_dec i 28) as [->|Hne].
  - destruct (loads_of_exact arg_N loading_min 28 Hmin) as [_ Hlast].
    rewrite Hlast.
    destruct (loads_of_range arg_N loading_min 28 Hmin) as [Hle Hiff]; [lia|].
    cbv zeta in Hle, Hiff.
    destruct (Rle_lt_or_eq_dec _ _ (proj2 Hle)) as [Hlt|Heq]; [exact Hlt|].
    apply Hiff in Heq. discriminate.
  - destruct (loads_of_exact arg_N loading_min i Hmin) as [H1 _].
    destruct (loads_of_exact arg_N loading_min (S i) Hmin) as [H2 _].
    rewrite H1, H2 by lia.
    rewrite Nat2Z.inj_succ, succ_IZR.
    assert (0 < (4 - loading_min) / 29)%R by lra. lra.
Qed.

(** X8. In exact arithmetic, with [loading.min < 4], the load sequence of
    the driver has 30 entries, starts at [loading.min], ends at
    [loading.max = k = 4] and is strictly increasing. *)
Theorem loads_strictly_ascending (arg_N : Z) (loading_min : R) :
  (loading_min < 4)%R ->
  let loads := Driver.loads_of arg_N loading_min in
  List.length loads = 30%nat
  /\ nth 0 loads 0%R = loading_min
  /\ nth 29 loads 0%R = 4%R
  /\ forall i : nat, (i < 29)%nat -> (nth i loads 0 < nth (S i) loads 0)%R.
Proof.
  intros Hmin loads. subst loads. splits.
  - apply length_loads_of.
  - apply loads_of_first, Hmin.
  - apply (loads_of_exact arg_N loading_min 0 Hmin).
  - intros i Hi. apply loads_of_step_up; assumption.
Qed.

Lemma loads_strictly_ascending_witness :
  nth 0 (Driver.loads_of 2 0%R) 0%R = 0%R
  /\ (nth 0 (Driver.loads_of 2 0%R) 0 < nth 1 (Driver.loads_of 2 0%R) 0)%R.
Proof.
  destruct (loads_strictly_ascending 2 0%R) as (_ & H0 & _ & H); [lra|].
  split; [exact H0|apply H; lia].
Defined.

(** X9. In exact arithmetic, with [loading.min < 4], the damage recorded in
    [history_data["alpha_t"]] never decreases from one load step to the
    next, at any cell: the states the driver prescribes respect
    irreversibility although [alpha_lb] is never raised. *)
Theorem recorded_damage_nondecreasing (World Eigs ConeData : Type)
    (Sv : Driver.Solvers R World Eigs ConeData)
    (arg_N : Z) (w : World) (loading_min : R) :
  (loading_min < 4)%R ->
  exists r : Driver.Run R World Eigs ConeData,
    Driver.discrete_atk arg_N loading_min w = Some r
    /\ forall i : nat, (i < 29)%nat ->
         Forall2 Rle (nth i (Driver.alpha_t (Driver.history_data r)) [])
                     (nth (S i) (Driver.alpha_t (Driver.history_data r)) []).
Proof.
  intros Hmin.
  destruct (run_effect (Sv:=Sv) arg_N w (Driver.loads_of arg_N loading_min))
    as (r & Hrun & _ & _ & _ & _ & Ha & _).
  exists r. split; [exact Hrun|]. intros i Hi. rewrite Ha.
  rewrite !(nth_map_in (fun t => alpha (prescribed arg_N t)) _ _ 0%R)
    by (rewrite length_loads_of; lia).
  rewrite !alpha_prescribed_damage_at.
  apply Forall2_map_const, damage_at_mono. left.
  apply loads_of_step_up; assumption.
Qed.

Lemma recorded_damage_nondecreasing_witness :
  exists r : Driver.Run R unit unit unit,
    Driver.discrete_atk (Sv:=Examples.solvers) 2 0%R tt = Some r
    /\ Forall2 Rle (nth 7 (Driver.alpha_t (Driver.history_data r)) [])
                   (nth 8 (Driver.alpha_t (Driver.history_data r)) []).
Proof.
  assert (Hmin : (0 < 4)%R) by lra.
  destruct (recorded_damage_nondecreasing unit unit unit Examples.solvers 2 tt 0%R Hmin)
    as (r & Hrun & H).
  exists r. split; [exact Hrun|]. apply H. lia.
Defined.

Section RunComposition.
Import Driver.
Context {F : Type} {A : Arith F} {World Eigs ConeData : Type}.
Context {Sv : Solvers F World Eigs ConeData}.

Let Run' := Run F World Eigs ConeData.

(** The loop over [l1 ++ l2] is the loop over [l1] followed by the loop
    over [l2]. *)
Lemma load_loop_app (m : MatPar) (l1 l2 : list F) :
  forall r : Run',
    load_loop m r (l1 ++ l2)
    = match load_loop m r l1 with
      | Some r1 => load_loop m r1 l2
      | None => None
      end.
Proof.
  induction l1 as [|t l1 IH]; simpl; intros r.
  - reflexivity.
  - destruct (load_step m r t) as [r1|]; [apply IH|reflexivity].
Qed.

Lemma history_prefix_refl (h : History F Eigs ConeData) : history_prefix h h.
Proof.
  unfold history_prefix. splits; exists []; now rewrite app_nil_r.
Qed.

Lemma history_prefix_trans (h1 h2 h3 : History F Eigs ConeData) :
  history_prefix h1 h2 -> history_prefix h2 h3 -> history_prefix h1 h3.
Proof.
  unfold history_prefix.
  intros (A1 & A2 & A3 & A4 & A5 & A6 & A7 & A8 & A9 & A10 & A11)
         (B1 & B2 & B3 & B4 & B5 & B6 & B7 & B8 & B9 & B10 & B11).
  destruct A1 as [? A1], A2 as [? A2], A3 as [? A3], A4 as [? A4],
    A5 as [? A5], A6 as [? A6], A7 as [? A7], A8 as [? A8], A9 as [? A9],
    A10 as [? A10], A11 as [? A11].
  destruct B1 as [? B1], B2 as [? B2], B3 as [? B3], B4 as [? B4],
    B5 as [? B5], B6 as [? B6], B7 as [? B7], B8 as [? B8], B9 as [? B9],
    B10 as [? B10], B11 as [? B11].
  rewrite B1, B2, B3, B4, B5, B6, B7, B8, B9, B10, B11.
  rewrite A1, A2, A3, A4, A5, A6, A7, A8, A9, A10, A11.
  splits; eexists; rewrite <- app_assoc; reflexivity.
Qed.

(** A load step, at any material parameters, leaves the entries already in
    [history_data] as they are. *)
Lemma load_step_prefix (m : MatPar) (r r' : Run') (t : F) :
  load_step m r t = Some r' ->
  history_prefix (history_data r) (history_data r').
Proof.
  unfold load_step.
  destruct (_homogeneous_state m (state r) t m) as [st|]; [|discriminate].
  destruct (solve_stability (solvers r) st (alpha_lb r)) as [w1' is_stable].
  destruct (my_solve_cone w1' st (alpha_lb r)) as [w2' stable].
  intros [= <-]. unfold history_prefix. simpl.
  splits; eexists; reflexivity.
Qed.

Lemma load_loop_prefix (m : MatPar) (loads : list F) :
  forall r r' : Run',
    load_loop m r loads = Some r' ->
    history_prefix (history_data r) (history_data r').
Proof.
  induction loads as [|t loads IH]; simpl; intros r r' H.
  - injection H as <-. apply history_prefix_refl.
  - destruct (load_step m r t) as [r1|] eqn:E; [|discriminate].
    eapply history_prefix_trans; [exact (load_step_prefix _ _ _ _ E)|].
    apply IH, H.
Qed.

(** X10. The history is append-only across runs: the run over a load
    sequence [l1 ++ l2] is the run over [l1] continued over [l2], and every
    list of the history of the run over [l1] is the beginning of the list
    under the same key in the history of the longer run (the solvers being
    functions of what they are given). *)
Theorem history_of_prefix_run (arg_N : Z) (w : World) (l1 l2 : list F) :
  exists r1 r : Run',
    load_loop (model arg_N) (initial arg_N w) l1 = Some r1
    /\ load_loop (model arg_N) (initial arg_N w) (l1 ++ l2) = Some r
    /\ load_loop (model arg_N) r1 l2 = Some r
    /\ history_prefix (history_data r1) (history_data r)
    /\ load (history_data r1) = l1
    /\ load (history_data r) = l1 ++ l2.
Proof.
  destruct (run_effect (Sv:=Sv) arg_N w l1)
    as (r1 & Hrun1 & _ & _ & _ & Hl1 & _).
  destruct (run_effect (Sv:=Sv) arg_N w (l1 ++ l2))
    as (r & Hrun & _ & _ & _ & Hl & _).
  exists r1, r.
  assert (H12 : load_loop (model arg_N) r1 l2 = Some r).
  { rewrite load_loop_app, Hrun1 in Hrun. exact Hrun. }
  splits; try assumption.
  exact (load_loop_prefix _ _ _ _ H12).
Qed.

(** The state the loop leaves is the one prescribed at the last load. *)
Lemma run_final_state (arg_N : Z) (w : World) (l : list F) (t : F) :
  exists r : Run',
    load_loop (model arg_N) (initial arg_N w) (l ++ [t]) = Some r
    /\ state r = prescribed arg_N t
    /\ List.last (load (history_data r)) t = t
    /\ List.last (alpha_t (history_data r)) [] = alpha (prescribed arg_N t)
    /\ List.last (u_t (history_data r)) [] = u (prescribed arg_N t).
Proof.
  destruct (run_effect (Sv:=Sv) arg_N w (l ++ [t]))
    as (r & Hrun & _ & _ & _ & Hl & Ha & Hu & _).
  exists r. splits.
  - exact Hrun.
  - rewrite load_loop_app in Hrun.
    destruct (load_loop (model arg_N) (initial arg_N w) l) as [r1|];
      [|discriminate].
    simpl in Hrun.
    destruct (load_step (model arg_N) r1 t) as [r2|] eqn:E; [|discriminate].
    injection Hrun as <-. now destruct (load_step_effect _ _ _ _ E).
  - rewrite Hl. apply last_last.
  - rewrite Ha, map_app. simpl. apply last_last.
  - rewrite Hu, map_app. simpl. apply last_last.
Qed.

End RunComposition.

(** X11. Whatever [loading.min] is and whatever the number of cells, the
    last load of the driver is exactly [4.0] and the run ends with every
    damage cell at exactly [1.0], the upper bound, and the displacements
    [(4 / N) * i]: in binary64 (first part) and in exact arithmetic
    (second part). *)
Theorem run_ends_fully_damaged :
  (forall (World Eigs ConeData : Type)
          (Sv : Driver.Solvers float World Eigs ConeData)
          (arg_N : Z) (loading_min : float) (w : World),
     exists r : Driver.Run float World Eigs ConeData,
       Driver.discrete_atk arg_N loading_min w = Some r
       /\ List.last (Driver.load (Driver.history_data r)) 4%float = 4%float
       /\ alpha (Driver.state r) = map (fun _ => 1%float) (range arg_N)
       /\ alpha (Driver.state r) = Driver.alpha_ub r
       /\ u (Driver.state r)
          = map (fun i => (4 / Z2float arg_N * Z2float i)%float) (range (arg_N + 1))
       /\ List.last (Driver.alpha_t (Driver.history_data r)) []
          = map (fun _ => 1%float) (range arg_N))
  /\ (forall (World Eigs ConeData : Type)
             (Sv : Driver.Solvers R World Eigs ConeData)
             (arg_N : Z) (loading_min : R) (w : World),
        exists r : Driver.Run R World Eigs ConeData,
          Driver.discrete_atk arg_N loading_min w = Some r
          /\ List.last (Driver.load (Driver.history_data r)) 4%R = 4%R
          /\ alpha (Driver.state r) = map (fun _ => 1%R) (range arg_N)
          /\ alpha (Driver.state r) = Driver.alpha_ub r
          /\ u (Driver.state r)
             = map (fun i => (4 / IZR arg_N * IZR i)%R) (range (arg_N + 1))
          /\ List.last (Driver.alpha_t (Driver.history_data r)) []
             = map (fun _ => 1%R) (range arg_N)).
Proof.
  split.
  - intros World Eigs ConeData Sv arg_N loading_min w.
    unfold Driver.discrete_atk, Driver.loads_of. rewrite linspace_30. cbv zeta.
    match goal with
    | |- context [Driver.load_loop _ _ (?l ++ [?t])] =>
        destruct (run_final_state (Sv:=Sv) arg_N w l t)
          as (r & Hrun & Hst & Hl & Ha & _);
        destruct (run_effect (Sv:=Sv) arg_N w (l ++ [t]))
          as (r' & Hrun' & _ & Hub & _)
    end.
    rewrite Hrun in Hrun'. injection Hrun' as <-.
    exists r. splits; try exact Hrun.
    + exact Hl.
    + rewrite Hst. reflexivity.
    + rewrite Hst, Hub. reflexivity.
    + rewrite Hst. reflexivity.
    + rewrite Ha. reflexivity.
  - intros World Eigs ConeData Sv arg_N loading_min w.
    unfold Driver.discrete_atk, Driver.loads_of. rewrite linspace_30. cbv zeta.
    match goal with
    | |- context [Driver.load_loop _ _ (?l ++ [?t])] =>
        destruct (run_final_state (Sv:=Sv) arg_N w l t)
          as (r & Hrun & Hst & Hl & Ha & _);
        destruct (run_effect (Sv:=Sv) arg_N w (l ++ [t]))
          as (r' & Hrun' & _ & Hub & _)
    end.
    rewrite Hrun in Hrun'. injection Hrun' as <-.
    assert (E4 : prescribed arg_N (of_Z (k (Driver.model arg_N)))
                 = mkState (map (fun i => (4 / IZR arg_N * IZR i)%R) (range (arg_N + 1)))
                           (map (fun _ => 1%R) (range arg_N))).
    { unfold prescribed. rewrite tc_model_R. simpl.
      destruct (Rle_dec 4 1) as [Hle|_]; [exfalso; lra|].
      unfold damaging_branch. simpl. f_equal.
      apply map_ext. intros _. change (IZR (4 - 1)) with 3%R. lra. }
    exists r. splits; try exact Hrun.
    + exact Hl.
    + rewrite Hst, E4. reflexivity.
    + rewrite Hst, Hub, E4. reflexivity.
    + rewrite Hst, E4. reflexivity.
    + rewrite Ha, E4. reflexivity.
Qed.

(** ** The outcomes of [solve] *)

Lemma firstn_seq_le (n : nat) :
  forall start len : nat, (n <= len)%nat -> firstn n (seq start len) = seq start n.
Proof.
  induction n as [|n IH]; intros start len H.
  - reflexivity.
  - destruct len as [|len]; [lia|]. simpl. f_equal. apply IH. lia.
Qed.

Lemma range_prefix (m : Z) (done rest : list Z) :
  range m = done ++ rest -> done = range (Z.of_nat (List.length done)).
Proof.
  intros H.
  assert (Hlen : (List.length done <= Z.to_nat m)%nat).
  { apply (f_equal (@List.length Z)) in H.
    rewrite length_range, length_app in H. lia. }
  apply (f_equal (firstn (List.length done))) in H.
  rewrite firstn_app, firstn_all, Nat.sub_diag, firstn_O, app_nil_r in H.
  remember (List.length done) as n eqn:En.
  rewrite <- H. unfold range.
  rewrite firstn_map, firstn_seq_le by exact Hlen.
  now rewrite Nat2Z.id.
Qed.

Lemma combine_snoc {X Y : Type} (l1 : list X) (l2 : list Y) (x : X) (y : Y) :
  List.length l1 = List.length l2 ->
  combine (l1 ++ [x]) (l2 ++ [y]) = combine l1 l2 ++ [(x, y)].
Proof.
  revert l2. induction l1 as [|a l1 IH]; intros [|b l2] H; simpl in *;
    try discriminate; try reflexivity.
  f_equal. apply IH. lia.
Qed.

Section SolveOutcomes.
Import _AlternateMinimisation.
Context {F : Type} {A : Arith F} {World : Type} {E : Externals F World}.

Let AM := t F World.

(** The loop from any object: the passes made are a beginning [done] of
    [its]; what each outcome tells about [done] and about the object. *)
Lemma loop_shape (its : list Z) :
  forall (self : AM) (last : option (Z * F)),
    exists done rest,
      its = done ++ rest
      /\ iteration (data (self_of (loop its self last)))
         = iteration (data self) ++ done
      /\ (forall n, data_lengths (data self) n ->
                    data_lengths (data (self_of (loop its self last)))
                                 (n + List.length done))
      /\ solver_parameters (self_of (loop its self last)) = solver_parameters self
      /\ alpha_lb (self_of (loop its self last)) = alpha_lb self
      /\ alpha_ub (self_of (loop its self last)) = alpha_ub self
      /\ (done = [] -> self_of (loop its self last) = self)
      /\ (done <> [] ->
          alpha_old (self_of (loop its self last))
          = alpha (state (self_of (loop its self last))))
      /\ match loop its self last with
         | Returned _ => done <> []
         | RuntimeError s i e =>
             rest = []
             /\ (done = [] -> last = Some (i, e))
             /\ (done <> [] ->
                 i = List.last done 0%Z /\ ends_with (error_alpha_H1 (data s)) e)
         | UnboundLocalError _ => its = [] /\ last = None
         end.
Proof.
  induction its as [|i its IH]; intros self last.
  - exists [], []. simpl.
    destruct last as [[i e]|]; simpl; rewrite app_nil_r;
      splits;
      try (intros; first [ reflexivity | congruence
                         | now rewrite ?Nat.add_0_r ]).
  - simpl. destruct (body self i) as [[s1 brk] e] eqn:Eb.
    destruct (body_effect _ _ _ _ _ Eb)
      as (Hcfg & Hlb & Hub & Hold & Hit & Hh1 & _ & _ & Hlen).
    destruct brk.
    + exists [i], its. simpl. splits; try assumption; try reflexivity.
      * intros n Hn. replace (n + 1)%nat with (S n) by lia. apply Hlen, Hn.
      * discriminate.
      * intros _. exact Hold.
      * discriminate.
    + destruct (IH s1 (Some (i, e)))
        as (done & rest & Hits & Hit' & Hlen' & Hcfg' & Hlb' & Hub' & Hnil
            & Hold' & Hout).
      exists (i :: done), rest. splits.
      * simpl. now rewrite Hits.
      * rewrite Hit', Hit, <- app_assoc. reflexivity.
      * intros n Hn. simpl.
        replace (n + S (List.length done))%nat
          with (S n + List.length done)%nat by lia.
        apply Hlen', Hlen, Hn.
      * now rewrite Hcfg'.
      * now rewrite Hlb'.
      * now rewrite Hub'.
      * discriminate.
      * intros _. destruct done as [|j done'].
        -- rewrite (Hnil eq_refl). exact Hold.
        -- apply Hold'. discriminate.
      * destruct (loop its s1 (Some (i, e))) as [s|s i0 e0|s] eqn:El.
        -- discriminate.
        -- destruct Hout as (Hrest & Hd0 & Hd1). splits.
           ++ exact Hrest.
           ++ discriminate.
           ++ intros _. destruct done as [|j done'].
              ** specialize (Hd0 eq_refl). injection Hd0 as <- <-.
                 simpl in Hnil. rewrite (Hnil eq_refl).
                 split; [reflexivity|].
                 eexists. exact Hh1.
              ** destruct Hd1 as [Hi He]; [discriminate|].
                 split; [|exact He]. rewrite Hi. reflexivity.
        -- destruct Hout as [_ Hnone]. discriminate.
Qed.

(** The tests the loop makes: every pass but the one that breaks fails the
    stopping test on the two values it records. *)
Lemma loop_tests (its : list Z) :
  forall (self : AM) (last : option (Z * F)) (n : nat),
    let cfg := solver_parameters self in
    let failed := fun q : F * F => stop cfg (fst q) (snd q) = false in
    let pairs := fun d : Data F => combine (error_residual_F d) (error_alpha_H1 d) in
    data_lengths (data self) n ->
    Forall failed (pairs (data self)) ->
    match loop its self last with
    | Returned s =>
        exists ps p, pairs (data s) = ps ++ [p]
                     /\ Forall failed ps
                     /\ stop cfg (fst p) (snd p) = true
    | RuntimeError s _ _ => Forall failed (pairs (data s))
    | UnboundLocalError s => Forall failed (pairs (data s))
    end.
Proof.
  induction its as [|i its IH]; intros self last n cfg failed pairs Hn Hf.
  - simpl. destruct last as [[i e]|]; exact Hf.
  - simpl. destruct (body self i) as [[s1 brk] e] eqn:Eb.
    destruct (body_effect _ _ _ _ _ Eb)
      as (Hcfg & _ & _ & _ & _ & Hh1 & _ & (res & Hres & Hbrk) & Hlen).
    assert (Hp : pairs (data s1) = pairs (data self) ++ [(res, e)]).
    { unfold pairs. rewrite Hres, Hh1. apply combine_snoc.
      unfold data_lengths in Hn. decompose [and] Hn. congruence. }
    destruct brk.
    + exists (pairs (data self)), (res, e). splits.
      * exact Hp.
      * exact Hf.
      * simpl. now symmetry.
    + specialize (IH s1 (Some (i, e)) (S n)). cbv zeta in IH.
      rewrite Hcfg in IH. apply IH.
      * apply Hlen, Hn.
      * unfold pairs in Hp. rewrite Hp. apply Forall_app. split; [exact Hf|].
        constructor; [|constructor]. simpl. now symmetry.
Qed.

Lemma empty_data_lengths : data_lengths (@empty_data F) 0.
Proof. unfold data_lengths. simpl. splits; reflexivity. Qed.

(** X12. Whatever the solvers answer, when [solve] ends every list of
    [self.data] has the same number [n] of entries, at most [max_it], and
    [data["iteration"]] is [0, 1, ..., n - 1].  It returns only after at
    least one pass; it raises [RuntimeError] only when [max_it >= 1], after
    exactly [max_it] passes, carrying [max_it - 1] and the last
    [error_alpha_H1]; and with [max_it <= 0] no pass is made and the error
    raised is [UnboundLocalError]. *)
Theorem solve_outcome_shape (self : AM) :
  let cfg := solver_parameters self in
  let d := data (self_of (solve self)) in
  exists n : nat,
    data_lengths d n
    /\ iteration d = range (Z.of_nat n)
    /\ (Z.of_nat n <= Z.max 0 (max_it cfg))%Z
    /\ match solve self with
       | Returned _ => (1 <= n)%nat
       | RuntimeError s i e =>
           (1 <= max_it cfg)%Z /\ Z.of_nat n = max_it cfg
           /\ i = (max_it cfg - 1)%Z /\ ends_with (error_alpha_H1 (data s)) e
       | UnboundLocalError _ => (max_it cfg <= 0)%Z /\ n = 0%nat
       end.
Proof.
  intros cfg d. subst d. unfold solve. fold cfg.
  destruct (loop_shape (range (max_it cfg)) (with_data self empty_data) None)
    as (done & rest & Hits & Hit & Hlen & _ & _ & _ & _ & _ & Hout).
  exists (List.length done).
  assert (Hle : (List.length done <= Z.to_nat (max_it cfg))%nat).
  { apply (f_equal (@List.length Z)) in Hits.
    rewrite length_range, length_app in Hits. lia. }
  splits.
  - apply (Hlen 0%nat). apply empty_data_lengths.
  - rewrite Hit. simpl. exact (range_prefix _ _ _ Hits).
  - lia.
  - destruct (loop (range (max_it cfg)) (with_data self empty_data) None)
      as [s|s i e|s].
    + destruct done; [contradiction|simpl; lia].
    + destruct Hout as (-> & Hd0 & Hd1). rewrite app_nil_r in Hits.
      destruct done as [|j done'] eqn:Ed; [specialize (Hd0 eq_refl); discriminate|].
      destruct Hd1 as [Hi He]; [discriminate|].
      assert (Hmax : (1 <= max_it cfg)%Z) by (simpl in Hle; lia).
      splits.
      * exact Hmax.
      * rewrite <- Hits, length_range. lia.
      * rewrite Hi, <- Hits. apply last_range, Hmax.
      * exact He.
    + destruct Hout as [Hnil _].
      apply (f_equal (@List.length Z)) in Hnil. rewrite length_range in Hnil.
      simpl in Hnil. split; [lia|].
      apply (f_equal (@List.length Z)) in Hits.
      rewrite length_range, length_app in Hits. lia.
Qed.

(** X13. [solve] leaves the bounds and the configuration of the object as
    they were, in every outcome; and when [max_it >= 1] it ends with
    [alpha_old] equal to the damage of the state, the copy made at the end of
    the last pass. *)
Theorem solve_frame (self : AM) :
  let s' := self_of (solve self) in
  alpha_lb s' = alpha_lb self
  /\ alpha_ub s' = alpha_ub self
  /\ solver_parameters s' = solver_parameters self
  /\ ((1 <= max_it (solver_parameters self))%Z ->
      alpha_old s' = alpha (state s')).
Proof.
  intros s'. subst s'. unfold solve.
  destruct (loop_shape (range (max_it (solver_parameters self)))
              (with_data self empty_data) None)
    as (done & rest & Hits & _ & _ & Hcfg & Hlb & Hub & _ & Hold & Hout).
  splits; try assumption.
  intros Hmax. apply Hold. intros ->. simpl in Hits.
  destruct (loop (range (max_it (solver_parameters self)))
              (with_data self empty_data) None) as [s|s i e|s].
  - contradiction.
  - destruct Hout as (-> & Hd0 & _). specialize (Hd0 eq_refl). discriminate.
  - destruct Hout as [Hnil _]. exact (range_nonempty _ Hmax Hnil).
Qed.

(** X14. [solve] stops at the first pass that meets the stopping test: in
    the values recorded in [error_residual_F] and [error_alpha_H1], taken
    pass by pass, every pass fails the test, except the last one of a run
    that returns, which meets it. *)
Theorem solve_breaks_at_first_success (self : AM) :
  let cfg := solver_parameters self in
  let failed := fun q : F * F => stop cfg (fst q) (snd q) = false in
  let pairs := fun d : Data F => combine (error_residual_F d) (error_alpha_H1 d) in
  match solve self with
  | Returned s =>
      exists ps p, pairs (data s) = ps ++ [p]
                   /\ Forall failed ps
                   /\ stop cfg (fst p) (snd p) = true
  | RuntimeError s _ _ => Forall failed (pairs (data s))
  | UnboundLocalError s => Forall failed (pairs (data s))
  end.
Proof.
  intros cfg failed pairs. unfold solve.
  apply (loop_tests (range (max_it (solver_parameters self)))
           (with_data self empty_data) None 0%nat).
  - apply empty_data_lengths.
  - constructor.
Qed.

Lemma never_stops_unknown (its : list Z) :
  forall self : AM,
    criterion (solver_parameters self) <> "residual_u"%string ->
    criterion (solver_parameters self) <> "alpha_H1"%string ->
    never_stops its self = true.
Proof.
  induction its as [|i its IH]; intros self H1 H2; simpl.
  - reflexivity.
  - destruct (body self i) as [[s1 brk] e] eqn:Eb. simpl.
    destruct (body_effect _ _ _ _ _ Eb)
      as (Hcfg & _ & _ & _ & _ & _ & _ & (res & _ & Hbrk) & _).
    apply andb_true_intro. split.
    + rewrite Hbrk. unfold stop.
      apply String.eqb_neq in H1, H2. rewrite H1, H2. reflexivity.
    + apply IH; rewrite Hcfg; assumption.
Qed.

(** X15. A [criterion] that is neither ['residual_u'] nor ['alpha_H1'] is
    not rejected: [solve] then never returns, and with [max_it >= 1] it makes
    all [max_it] passes and raises [RuntimeError]. *)
Theorem unknown_criterion_never_converges (self : AM) :
  criterion (solver_parameters self) <> "residual_u"%string ->
  criterion (solver_parameters self) <> "alpha_H1"%string ->
  (forall s', solve self <> Returned s')
  /\ ((1 <= max_it (solver_parameters self))%Z ->
      exists s' e,
        solve self = RuntimeError s' (max_it (solver_parameters self) - 1) e
        /\ data_lengths (data s') (Z.to_nat (max_it (solver_parameters self)))).
Proof.
  intros H1 H2.
  pose proof (never_stops_unknown (range (max_it (solver_parameters self)))
                (with_data self empty_data) H1 H2) as Hnever.
  unfold solve. rewrite (loop_exhausted _ _ None Hnever). split.
  - intros s'. destruct (range (max_it (solver_parameters self))); discriminate.
  - intros Hmax.
    pose proof (last_range _ Hmax) as Hlast.
    pose proof (range_nonempty _ Hmax) as Hne.
    destruct (range (max_it (solver_parameters self))) as [|i its] eqn:Er;
      [contradiction|].
    eexists. eexists. split.
    + rewrite Hlast. reflexivity.
    + replace (Z.to_nat (max_it (solver_parameters self)))
        with (0 + List.length (i :: its))%nat
        by (rewrite <- Er, length_range; lia).
      apply run_body_lengths, empty_data_lengths.
Qed.

End SolveOutcomes.

Lemma unknown_criterion_witness :
  exists s' e,
    _AlternateMinimisation.solve (E:=Examples.converging_externals)
      Examples.misconfigured_am
    = _AlternateMinimisation.RuntimeError s' (2 - 1) e
    /\ _AlternateMinimisation.data_lengths (_AlternateMinimisation.data s') 2.
Proof.
  refine (proj2 (unknown_criterion_never_converges
                   (E:=Examples.converging_externals)
                   Examples.misconfigured_am _ _) _).
  - discriminate.
  - discriminate.
  - simpl. lia.
Defined.

(** The run of three passes on which the stopping test fails each time. *)
Lemma solve_exhausted_witness :
  exists s' e,
    _AlternateMinimisation.solve (E:=Examples.stalling_externals)
      Examples.stalling_am
    = _AlternateMinimisation.RuntimeError s' (3 - 1) e
    /\ _AlternateMinimisation.data_lengths (_AlternateMinimisation.data s') 3.
Proof.
  eexists. eexists.
  refine (solve_exhausted (E:=Examples.stalling_externals)
            Examples.stalling_am _ _).
  - simpl. lia.
  - vm_compute. reflexivity.
Defined.

(** ** The recorded maximum and the max-norm *)

Section MaxNorm.
Import _AlternateMinimisation.
Context {World : Type} {E : Externals R World}.

Lemma fold_max_nonneg (xs : list R) :
  forall m : R,
    (0 <= m)%R -> Forall (fun x => (0 <= x)%R) xs ->
    fold_left (fun m y => if (m <? y)%ar then y else m) xs m
    = fold_left (fun m y => if (m <? fabs y)%ar then fabs y else m) xs m.
Proof.
  induction xs as [|x xs IH]; intros m Hm Hxs; simpl.
  - reflexivity.
  - inversion Hxs as [|? ? Hx Hxs']; subst.
    rewrite (Rabs_pos_eq x Hx).
    apply IH; [|exact Hxs'].
    destruct (Rlt_dec m x); lra.
Qed.

Lemma increment_nonneg (old new : list R) :
  Forall2 Rle old new -> Forall (fun x => (0 <= x)%R) (increment new old).
Proof.
  unfold increment. induction 1 as [|o n old new Hon H IH]; simpl.
  - constructor.
  - constructor; [lra|exact IH].
Qed.

Lemma vec_max_nonneg_is_norm (v : list R) :
  v <> [] -> Forall (fun x => (0 <= x)%R) v -> vec_max v = max_norm_spec v.
Proof.
  destruct v as [|x xs]; [contradiction|]. intros _ Hv.
  inversion Hv as [|? ? Hx Hxs]; subst.
  unfold vec_max, max_norm_spec. simpl fold_left at 2.
  rewrite (Rabs_pos_eq x Hx). simpl.
  destruct (Rlt_dec 0 x) as [Hlt|Hnlt].
  - apply fold_max_nonneg; assumption.
  - replace x with 0%R by lra. apply fold_max_nonneg; [lra|assumption].
Qed.

(** X17. In exact arithmetic, in a pass where no cell of the damage
    decreases (the new damage is entry by entry at least [alpha_old]) and the
    damage has at least one cell, the value recorded in [error_alpha_max] is
    the max-norm of the increment. *)
Theorem recorded_max_is_norm_when_damage_grows (self : t R World) (i : Z) :
  let self' := fst (fst (body self i)) in
  alpha (state self') <> [] ->
  Forall2 Rle (alpha_old self) (alpha (state self')) ->
  ends_with (error_alpha_max (data self'))
            (max_norm_spec (increment (alpha (state self')) (alpha_old self))).
Proof.
  intros self' Hne Hgrow. subst self'.
  destruct (body self i) as [[s1 brk] e] eqn:Eb. simpl in *.
  destruct (body_effect _ _ _ _ _ Eb) as (_ & _ & _ & _ & _ & _ & Hmax & _).
  exists (error_alpha_max (data self)). rewrite Hmax. do 2 f_equal.
  apply vec_max_nonneg_is_norm.
  - unfold increment. destruct (alpha (state s1)) as [|y ys]; [contradiction|].
    destruct (alpha_old self); discriminate.
  - apply increment_nonneg, Hgrow.
Qed.

End MaxNorm.

Lemma recorded_max_is_norm_witness :
  ends_with
    (_AlternateMinimisation.error_alpha_max
       (_AlternateMinimisation.data
          (fst (fst (_AlternateMinimisation.body (E:=Examples.growing_externals)
                       Examples.growing_am 0)))))
    (_AlternateMinimisation.max_norm_spec
       (_AlternateMinimisation.increment [1 / 2; 1 / 2]%R [0; 0]%R)).
Proof.
  apply (recorded_max_is_norm_when_damage_grows
           (E:=Examples.growing_externals) Examples.growing_am 0).
  - simpl. discriminate.
  - simpl. repeat constructor; lra.
Defined.

(** ** The bounds over the load sequence, in the program's arithmetic *)







